(** * BridgeService: the pending-request bridge of robloxstudio-mcp

    A shallow embedding of [src/bridge-service.ts] and the properties of
    its request table: claiming, stale-dispatch recovery, terminal
    resolution, the expiry sweep and the bulk clear.

    The class keeps one JavaScript [Map] from request id to request
    object.  A [Map] iterates in insertion order and the claim scan
    breaks ties by that order, so the table is an association list in
    insertion order.  The two host facilities the class relies on, the
    timer queue behind [setTimeout]/[clearTimeout] and the promise
    created in [sendRequest], are part of the state: a timer handle and
    a promise handle are indices into append-only lists.  [Date.now()]
    and [uuidv4()] are inputs of the operations that call them; a clock
    reading is a whole number of milliseconds, on which the
    subtractions and comparisons of the class are exact. *)

From Stdlib Require Import ZArith String.
From stdpp Require Import base tactics option list strings.

Local Open Scope string_scope.
Local Open Scope Z_scope.
Local Open Scope list_scope.

(** ** Values *)

(** The TypeScript type [any], as far as the bridge sees it: JSON data
    travelling through, and the [Error] objects the class creates. *)
#[local] Unset Elimination Schemes.
Inductive any : Type :=
| undefined
| null
| boolean (b : bool)
| number (z : Z)
| text (s : string)
| array (items : list any)
| object (fields : list (string * any))
| Error (message : string).
#[local] Set Elimination Schemes.

(** One invocation of a promise's [resolve] or [reject] function. *)
Inductive Settlement : Type :=
| Fulfilled (value : any)
| Rejected (reason : any).

(** A promise is represented by every call its two settling functions
    have received, oldest first.  JavaScript ignores all but the first,
    so the head of the list is the promise's state and the empty list is
    a pending promise. *)
Abbreviation Promise := (list Settlement).

Inductive TimerStatus : Type := Scheduled | Cancelled | Fired.

(** A timer created by [sendRequest].  Its callback closes over the
    request id and over the [reject] function of the promise. *)
Record Timer : Type := mkTimer {
  delay : Z;
  forRequest : string;
  onTimeout : nat;
  status : TimerStatus
}.

(** ** The request record and the state *)

(** The interface [PendingRequest].  [resolve] and [reject] hold the
    handle of the promise whose settling function the field is;
    [timeoutId] holds the handle of the timer. *)
Record PendingRequest : Type := mkRequest {
  id : string;
  endpoint : string;
  data : any;
  timestamp : Z;
  resolve : nat;
  reject : nat;
  timeoutId : nat;
  dispatched : bool;
  dispatchedAt : Z
}.

(** The [Map<string, PendingRequest>], in insertion order. *)
Abbreviation Table := (list (string * PendingRequest)).

(** The private fields of the class, then the host's timers and
    promises. *)
Record BridgeService : Type := mkBridge {
  pendingRequests : Table;
  timers : list Timer;
  promises : list Promise
}.

Definition requestTimeout : Z := 60000.
Definition dispatchStaleTimeout : Z := 45000.

Definition initial : BridgeService :=
  {| pendingRequests := []; timers := []; promises := [] |}.

(** Field assignments on a request object. *)
Definition set_dispatch (d : bool) (at_ : Z) (r : PendingRequest) : PendingRequest :=
  {| id := id r; endpoint := endpoint r; data := data r;
     timestamp := timestamp r; resolve := resolve r; reject := reject r;
     timeoutId := timeoutId r; dispatched := d; dispatchedAt := at_ |}.

Definition with_table (t : Table) (s : BridgeService) : BridgeService :=
  {| pendingRequests := t; timers := timers s; promises := promises s |}.

(** ** The JavaScript [Map] operations used by the class *)

Fixpoint map_get (k : string) (m : Table) : option PendingRequest :=
  match m with
  | [] => None
  | (k', v) :: m' => if String.eqb k k' then Some v else map_get k m'
  end.

Definition map_has (k : string) (m : Table) : bool :=
  match map_get k m with Some _ => true | None => false end.

(** [Map.prototype.set]: an existing key keeps its position, a new key
    goes last. *)
Fixpoint map_set (k : string) (v : PendingRequest) (m : Table) : Table :=
  match m with
  | [] => [(k, v)]
  | (k', v') :: m' =>
      if String.eqb k k' then (k, v) :: m' else (k', v') :: map_set k v m'
  end.

(** [Map.prototype.delete]; keys are unique, so the first match is the
    only one. *)
Fixpoint map_delete (k : string) (m : Table) : Table :=
  match m with
  | [] => []
  | (k', v') :: m' =>
      if String.eqb k k' then m' else (k', v') :: map_delete k m'
  end.

Definition keys (m : Table) : list string := m.*1.

(** ** Host operations *)

(** [clearTimeout]: a scheduled timer is cancelled; a timer that has
    fired, was cancelled or does not exist is left alone. *)
Definition cancel (tm : Timer) : Timer :=
  match status tm with
  | Scheduled =>
      {| delay := delay tm; forRequest := forRequest tm;
         onTimeout := onTimeout tm; status := Cancelled |}
  | _ => tm
  end.

Definition clearTimeout (t : nat) (s : BridgeService) : BridgeService :=
  {| pendingRequests := pendingRequests s;
     timers := alter cancel t (timers s);
     promises := promises s |}.

(** Calling the [resolve] or [reject] function of promise [p]. *)
Definition settle (p : nat) (o : Settlement) (s : BridgeService) : BridgeService :=
  {| pendingRequests := pendingRequests s;
     timers := timers s;
     promises := alter (λ calls, calls ++ [o]) p (promises s) |}.

(** ** sendRequest *)

(** Returns the handle of the promise handed to the caller. *)
Definition sendRequest (requestId : string) (now : Z)
    (endpoint_ : string) (data_ : any) (s : BridgeService) : BridgeService * nat :=
  let p := length (promises s) in
  let timeoutId_ := length (timers s) in
  let request :=
    {| id := requestId; endpoint := endpoint_; data := data_;
       timestamp := now; resolve := p; reject := p;
       timeoutId := timeoutId_; dispatched := false; dispatchedAt := 0 |} in
  ({| pendingRequests := map_set requestId request (pendingRequests s);
      timers := timers s ++ [mkTimer requestTimeout requestId p Scheduled];
      promises := promises s ++ [[]] |}, p).

(** The callback given to [setTimeout], run by the host for timer [t]. *)
Definition fireTimeout (t : nat) (s : BridgeService) : BridgeService :=
  match timers s !! t with
  | Some tm =>
      match status tm with
      | Scheduled =>
          let s1 :=
            {| pendingRequests := pendingRequests s;
               timers := <[t := mkTimer (delay tm) (forRequest tm) (onTimeout tm) Fired]> (timers s);
               promises := promises s |} in
          if map_has (forRequest tm) (pendingRequests s1)
          then settle (onTimeout tm) (Rejected (Error "Request timeout"))
                 (with_table (map_delete (forRequest tm) (pendingRequests s1)) s1)
          else s1
      | _ => s
      end
  | None => s
  end.

(** ** getPendingRequest *)

Record Claim : Type := mkClaim {
  requestId : string;
  request_endpoint : string;
  request_data : any
}.

(** A reference to a request object of the table: its position, with
    the object as it was when the reference was taken. *)
Abbreviation Ref := (nat * PendingRequest)%type.

(** [if (!oldestRequest || request.timestamp < oldestRequest.timestamp)
       oldestRequest = request;] *)
Definition consider (i : nat) (request : PendingRequest) (oldestRequest : option Ref)
    : option Ref :=
  match oldestRequest with
  | None => Some (i, request)
  | Some (j, oldest) =>
      if timestamp request <? timestamp oldest
      then Some (i, request) else Some (j, oldest)
  end.

(** The [for] loop over [pendingRequests.values()], from position [i]
    on.  It returns the entries as the loop leaves them, and
    [oldestRequest]. *)
Fixpoint scan (now : Z) (i : nat) (entries : Table) (oldestRequest : option Ref)
    : Table * option Ref :=
  match entries with
  | [] => ([], oldestRequest)
  | (k, request) :: rest =>
      if dispatched request then
        if now - dispatchedAt request >? dispatchStaleTimeout then
          let request' := set_dispatch false 0 request in
          let (rest', o) := scan now (S i) rest (consider i request' oldestRequest) in
          ((k, request') :: rest', o)
        else
          let (rest', o) := scan now (S i) rest oldestRequest in
          ((k, request) :: rest', o)
      else
        let (rest', o) := scan now (S i) rest (consider i request oldestRequest) in
        ((k, request) :: rest', o)
  end.

(** [oldestRequest.dispatched = true; oldestRequest.dispatchedAt = now;]
    on the object the reference points to. *)
Definition mark (now : Z) (e : string * PendingRequest) : string * PendingRequest :=
  (e.1, set_dispatch true now e.2).

Definition getPendingRequest (now : Z) (s : BridgeService)
    : BridgeService * option Claim :=
  match scan now 0 (pendingRequests s) None with
  | (table, Some (i, oldestRequest)) =>
      (with_table (alter (mark now) i table) s,
       Some (mkClaim (id oldestRequest) (endpoint oldestRequest) (data oldestRequest)))
  | (table, None) => (with_table table s, None)
  end.

(** ** resolveRequest, rejectRequest *)

Definition resolveRequest (requestId_ : string) (response : any) (s : BridgeService)
    : BridgeService :=
  match map_get requestId_ (pendingRequests s) with
  | Some request =>
      let s1 := clearTimeout (timeoutId request) s in
      let s2 := with_table (map_delete requestId_ (pendingRequests s1)) s1 in
      settle (resolve request) (Fulfilled response) s2
  | None => s
  end.

Definition rejectRequest (requestId_ : string) (error : any) (s : BridgeService)
    : BridgeService :=
  match map_get requestId_ (pendingRequests s) with
  | Some request =>
      let s1 := clearTimeout (timeoutId request) s in
      let s2 := with_table (map_delete requestId_ (pendingRequests s1)) s1 in
      settle (reject request) (Rejected error) s2
  | None => s
  end.

(** ** cleanupOldRequests *)

(** The loop over [pendingRequests.entries()].  Deleting the entry under
    the iterator is allowed in JavaScript and the iteration goes on with
    the next one, so the loop walks the entries present at its start. *)
Fixpoint cleanup_loop (now : Z) (entries : Table) (s : BridgeService) : BridgeService :=
  match entries with
  | [] => s
  | (k, request) :: rest =>
      if now - timestamp request >? requestTimeout then
        let s1 := clearTimeout (timeoutId request) s in
        let s2 := with_table (map_delete k (pendingRequests s1)) s1 in
        cleanup_loop now rest (settle (reject request) (Rejected (Error "Request timeout")) s2)
      else cleanup_loop now rest s
  end.

Definition cleanupOldRequests (now : Z) (s : BridgeService) : BridgeService :=
  cleanup_loop now (pendingRequests s) s.

(** ** clearAllPendingRequests *)

Fixpoint clear_loop (entries : Table) (s : BridgeService) : BridgeService :=
  match entries with
  | [] => s
  | (_, request) :: rest =>
      let s1 := clearTimeout (timeoutId request) s in
      clear_loop rest (settle (reject request) (Rejected (Error "Connection closed")) s1)
  end.

Definition clearAllPendingRequests (s : BridgeService) : BridgeService :=
  with_table [] (clear_loop (pendingRequests s) s).

(** ** Diagnostics *)

Definition getPendingCount (s : BridgeService) : nat := length (pendingRequests s).

Fixpoint count_dispatched (entries : Table) (count : nat) : nat :=
  match entries with
  | [] => count
  | (_, request) :: rest =>
      count_dispatched rest (if dispatched request then S count else count)
  end.

Definition getDispatchedCount (s : BridgeService) : nat :=
  count_dispatched (pendingRequests s) 0.

(** ** Descriptions used in the statements *)

(** A dispatch is stale once more than 45 s have passed since it. *)
Definition stale (now : Z) (r : PendingRequest) : bool :=
  dispatched r && (now - dispatchedAt r >? dispatchStaleTimeout).

(** Stale-dispatch recovery of one entry, and of the whole table. *)
Definition recover (now : Z) (e : string * PendingRequest) : string * PendingRequest :=
  if stale now e.2 then (e.1, set_dispatch false 0 e.2) else e.

Definition recover_all (now : Z) (m : Table) : Table := recover now <$> m.

Definition eligible (e : string * PendingRequest) : bool := negb (dispatched e.2).

(** [oldest_at m i]: position [i] holds the oldest eligible entry of
    [m], the first such in scan order. *)
Definition oldest_at (m : Table) (i : nat) : Prop :=
  ∃ e, m !! i = Some e ∧ eligible e = true ∧
    ∀ j e', m !! j = Some e' → eligible e' = true →
      timestamp e.2 ≤ timestamp e'.2 ∧ ((j < i)%nat → timestamp e.2 < timestamp e'.2).

(** What the loop leaves in [oldestRequest] depends on the recovered
    entries only: it is this fold over them. *)
Fixpoint pick (i : nat) (m : Table) (o : option Ref) : option Ref :=
  match m with
  | [] => o
  | e :: m' => pick (S i) m' (if eligible e then consider i e.2 o else o)
  end.

(** The loop in one sentence: it recovers every stale dispatch, and
    [oldestRequest] ends as the object at the position of the oldest
    eligible entry; there the claim is marked. *)
Inductive claim_outcome (now : Z) (s : BridgeService)
    : BridgeService * option Claim → Prop :=
| no_claim :
    Forall (λ e, eligible e = false) (recover_all now (pendingRequests s)) →
    claim_outcome now s (with_table (recover_all now (pendingRequests s)) s, None)
| claimed i k r :
    recover_all now (pendingRequests s) !! i = Some (k, r) →
    oldest_at (recover_all now (pendingRequests s)) i →
    claim_outcome now s
      (with_table (alter (mark now) i (recover_all now (pendingRequests s))) s,
       Some (mkClaim (id r) (endpoint r) (data r))).

(** ** The bridge as a transition system *)

(** The calls the bridge receives: its public methods, each with the
    clock reading or the fresh id it draws, and the host running the
    callback of a timer. *)
Inductive Op : Type :=
| SendRequest (requestId_ : string) (now : Z) (endpoint_ : string) (data_ : any)
| GetPendingRequest (now : Z)
| ResolveRequest (requestId_ : string) (response : any)
| RejectRequest (requestId_ : string) (error : any)
| CleanupOldRequests (now : Z)
| ClearAllPendingRequests
| TimeoutFires (t : nat).

Definition step (op : Op) (s : BridgeService) : BridgeService * option Claim :=
  match op with
  | SendRequest k now e d => ((sendRequest k now e d s).1, None)
  | GetPendingRequest now => getPendingRequest now s
  | ResolveRequest k v => (resolveRequest k v s, None)
  | RejectRequest k err => (rejectRequest k err s, None)
  | CleanupOldRequests now => (cleanupOldRequests now s, None)
  | ClearAllPendingRequests => (clearAllPendingRequests s, None)
  | TimeoutFires t => (fireTimeout t s, None)
  end.

(** Running a sequence of calls; the second component collects what the
    [getPendingRequest] calls among them returned, in order. *)
Fixpoint run (ops : list Op) (s : BridgeService) : BridgeService * list (option Claim) :=
  match ops with
  | [] => (s, [])
  | op :: ops' =>
      let (s1, c) := step op s in
      let (s2, cs) := run ops' s1 in
      (s2, match op with GetPendingRequest _ => c :: cs | _ => cs end)
  end.

(** [uuidv4()] never returns an id that is in use. *)
Definition fresh_id (op : Op) (s : BridgeService) : Prop :=
  match op with
  | SendRequest k _ _ _ => map_get k (pendingRequests s) = None
  | _ => True
  end.

Inductive reachable : BridgeService → Prop :=
| reach_initial : reachable initial
| reach_step op s : reachable s → fresh_id op s → reachable (step op s).1.

(** A table as a [Map] built by [sendRequest] holds it: keys are unique
    and every request is stored under its own id. *)
Definition wf_table (m : Table) : Prop :=
  NoDup (keys m) ∧ Forall (λ e, id e.2 = e.1) m.

(** What ties an entry to the host: both settling functions belong to
    one promise, nobody has called them, and the entry's timer is
    scheduled with a callback for this id and this promise. *)
Definition entry_ok (s : BridgeService) (e : string * PendingRequest) : Prop :=
  id e.2 = e.1 ∧ reject e.2 = resolve e.2 ∧
  promises s !! resolve e.2 = Some [] ∧
  timers s !! timeoutId e.2 = Some (mkTimer requestTimeout e.1 (resolve e.2) Scheduled).

Record Inv (s : BridgeService) : Prop := mkInv {
  inv_keys : NoDup (keys (pendingRequests s));
  inv_entries : Forall (entry_ok s) (pendingRequests s);
  inv_handles : NoDup ((λ e, resolve e.2) <$> pendingRequests s);
  inv_timers : ∀ t tm, timers s !! t = Some tm → status tm = Scheduled →
                 ∃ r, (forRequest tm, r) ∈ pendingRequests s ∧ timeoutId r = t;
  inv_once : Forall (λ calls : Promise, (length calls ≤ 1)%nat) (promises s)
}.

(** While the dispatch of [k] made at [t0] is live: no id is handed out
    twice by [uuidv4()], and the clock of a claim is within the stale
    window of [t0]. *)
Definition admissible (k : string) (t0 : Z) (op : Op) : Prop :=
  match op with
  | SendRequest k' _ _ _ => k' ≠ k
  | GetPendingRequest now => now - t0 ≤ dispatchStaleTimeout
  | _ => True
  end.

(** The entry of [k], if there is one, is dispatched since [t0]. *)
Definition live_dispatch (k : string) (t0 : Z) (m : Table) : Prop :=
  Forall (λ e, id e.2 = e.1 ∧
               (e.1 = k → dispatched e.2 = true ∧ dispatchedAt e.2 = t0)) m.

(** The ids among the results of a run. *)
Definition claimed_ids (cs : list (option Claim)) : list (option string) :=
  (λ c : option Claim, requestId <$> c) <$> cs.

(** ** Removal of entries *)

(** Every path that ends a request does the same three things to it:
    it deals with its timer, takes the entry out of the table and calls
    one settling function of its promise.  [removal f h o P s] is the
    state in which this was done to the entries of [s] outside [P]: the
    entries in [P] are kept in their order, the timer of each other
    entry is put through [f], and its settling function [h] is called
    with [o]. *)
Definition removal (f : Timer → Timer) (h : PendingRequest → nat) (o : Settlement)
    (P : string * PendingRequest → Prop) `{!∀ e, Decision (P e)}
    (s : BridgeService) : BridgeService :=
  let gone := filter (λ e, ¬ P e) (pendingRequests s) in
  {| pendingRequests := filter P (pendingRequests s);
     timers := foldl (λ tms e, alter f (timeoutId e.2) tms) (timers s) gone;
     promises := foldl (λ ps e, alter (λ calls, calls ++ [o]) (h e.2) ps) (promises s) gone |}.

(** What the host does to a timer whose callback it runs. *)
Definition fired (tm : Timer) : Timer :=
  mkTimer (delay tm) (forRequest tm) (onTimeout tm) Fired.

(** An entry the sweep passes over. *)
Definition unexpired (now : Z) (e : string * PendingRequest) : Prop :=
  now - timestamp e.2 ≤ requestTimeout.

#[global] Instance unexpired_dec now e : Decision (unexpired now e).
Proof. unfold unexpired. apply _. Defined.

(** [same_request e e']: [e'] is [e] up to the two dispatch fields. *)
Definition same_request (e e' : string * PendingRequest) : Prop :=
  e'.1 = e.1 ∧ e'.2 = set_dispatch (dispatched e'.2) (dispatchedAt e'.2) e.2.

(** Every [sendRequest] of the run draws a fresh id. *)
Fixpoint run_fresh (ops : list Op) (s : BridgeService) : Prop :=
  match ops with
  | [] => True
  | op :: ops' => fresh_id op s ∧ run_fresh ops' (step op s).1
  end.

(** ** Example states *)

(** Three requests sent to a new bridge at times 1, 2 and 3. *)
Definition three_requests : BridgeService :=
  (run [SendRequest "a" 1 "get_file_tree" (object [("path", text "/")]);
        SendRequest "b" 2 "set_property" (text "x");
        SendRequest "c" 3 "get_selection" null] initial).1.

(** The same after the oldest has been claimed at time 10. *)
Definition one_claimed : BridgeService := (getPendingRequest 10 three_requests).1.

(** All three claimed, at times 10, 20 and 30. *)
Definition all_claimed : BridgeService :=
  (run [GetPendingRequest 10; GetPendingRequest 20; GetPendingRequest 30]
     three_requests).1.

Definition request_a : PendingRequest :=
  {| id := "a"; endpoint := "get_file_tree"; data := object [("path", text "/")];
     timestamp := 1; resolve := 0; reject := 0; timeoutId := 0;
     dispatched := false; dispatchedAt := 0 |}.

Definition request_b : PendingRequest :=
  {| id := "b"; endpoint := "set_property"; data := text "x";
     timestamp := 2; resolve := 1; reject := 1; timeoutId := 1;
     dispatched := false; dispatchedAt := 0 |}.

Definition request_c : PendingRequest :=
  {| id := "c"; endpoint := "get_selection"; data := null;
     timestamp := 3; resolve := 2; reject := 2; timeoutId := 2;
     dispatched := false; dispatchedAt := 0 |}.

(** ** Descriptions used in the further properties *)

(** A dispatch that is not stale at [now]. *)
Definition live (now : Z) (e : string * PendingRequest) : Prop :=
  dispatched e.2 = true ∧ now - dispatchedAt e.2 ≤ dispatchStaleTimeout.

#[global] Instance live_dec now e : Decision (live now e).
Proof. unfold live. apply _. Defined.

(** The dispatched entries of a table. *)
Definition dispatched_entries (m : Table) : Table :=
  filter (λ e, dispatched e.2 = true) m.

(** A call that does not give the id [k] to a new request. *)
Definition not_sent (k : string) (op : Op) : Prop :=
  match op with
  | SendRequest k' _ _ _ => k' ≠ k
  | _ => True
  end.

(** Every request is stored under its own id, and none under [k]. *)
Definition unknown (k : string) (m : Table) : Prop :=
  Forall (λ e, id e.2 = e.1 ∧ e.1 ≠ k) m.

(** An entry that is not dispatched has [dispatchedAt = 0]. *)
Definition rest_at_zero (m : Table) : Prop :=
  Forall (λ e, dispatched e.2 = false → dispatchedAt e.2 = 0) m.

(** Every pending promise still has its request in the table. *)
Definition no_orphan (s : BridgeService) : Prop :=
  ∀ p, promises s !! p = Some [] → ∃ e, e ∈ pendingRequests s ∧ resolve e.2 = p.

(** The calls that only take entries out of the table. *)
Definition removing (op : Op) : Prop :=
  match op with
  | SendRequest _ _ _ _ | GetPendingRequest _ => False
  | _ => True
  end.

(** The body shared by [resolveRequest] and [rejectRequest]: look the id
    up and, if it is there, clear the timer, delete the entry and call
    the settling function [h] of the request with [o]. *)
Definition finish (h : PendingRequest → nat) (o : Settlement) (k : string)
    (s : BridgeService) : BridgeService :=
  match map_get k (pendingRequests s) with
  | Some request =>
      let s1 := clearTimeout (timeoutId request) s in
      let s2 := with_table (map_delete k (pendingRequests s1)) s1 in
      settle (h request) o s2
  | None => s
  end.

(** * Properties *)

(** ** The claim scan against its description *)

Lemma recover_fst now e : (recover now e).1 = e.1.
Proof. unfold recover. by destruct (stale now e.2). Qed.

Lemma recover_all_keys now m : keys (recover_all now m) = keys m.
Proof.
  unfold keys, recover_all. rewrite <- list_fmap_compose.
  apply list_fmap_ext. intros ? e _. apply recover_fst.
Qed.

Lemma scan_fst now l : ∀ i o, (scan now i l o).1 = recover_all now l.
Proof.
  induction l as [|[k r] l IH]; intros i o; simpl; [done|].
  unfold recover, stale; simpl.
  destruct (dispatched r); simpl.
  - destruct (now - dispatchedAt r >? dispatchStaleTimeout).
    + specialize (IH (S i) (consider i (set_dispatch false 0 r) o)).
      destruct (scan now (S i) l _); simpl in *. by f_equal.
    + specialize (IH (S i) o). destruct (scan now (S i) l _); simpl in *. by f_equal.
  - specialize (IH (S i) (consider i r o)).
    destruct (scan now (S i) l _); simpl in *. by f_equal.
Qed.

(** One step of the loop, on the recovered entry. *)
Lemma scan_cons now i e l o :
  (scan now i (e :: l) o).2 =
  (scan now (S i) l (if eligible (recover now e)
                     then consider i (recover now e).2 o else o)).2.
Proof.
  destruct e as [k r]. simpl. unfold recover, stale, eligible; simpl.
  destruct (dispatched r) eqn:Hd; simpl.
  - destruct (now - dispatchedAt r >? dispatchStaleTimeout); simpl.
    + by destruct (scan now (S i) l _).
    + rewrite Hd. simpl. by destruct (scan now (S i) l _).
  - rewrite Hd. simpl. by destruct (scan now (S i) l _).
Qed.

Lemma scan_snd now l : ∀ i o, (scan now i l o).2 = pick i (recover_all now l) o.
Proof.
  induction l as [|e l IH]; intros i o; [done|].
  rewrite scan_cons. simpl. apply IH.
Qed.

Lemma consider_cases i r o :
  (consider i r o = Some (i, r) ∧ ∀ j0 r0, o = Some (j0, r0) → timestamp r < timestamp r0)
  ∨ (∃ j0 r0, o = Some (j0, r0) ∧ consider i r o = o ∧ timestamp r0 ≤ timestamp r).
Proof.
  unfold consider. destruct o as [[j0 r0]|].
  - destruct (Z.ltb_spec (timestamp r) (timestamp r0)).
    + left. split; [done|]. by intros ?? [= <- <-].
    + right. by exists j0, r0.
  - left. split; [done|]. by intros ?? [=].
Qed.

Lemma pick_spec m : ∀ i o,
  match pick i m o with
  | None => o = None ∧ Forall (λ e, eligible e = false) m
  | Some (j, r) =>
      (o = Some (j, r) ∧
       ∀ n e, m !! n = Some e → eligible e = true → timestamp r ≤ timestamp e.2)
      ∨ (∃ n k, j = (i + n)%nat ∧ m !! n = Some (k, r) ∧ eligible (k, r) = true ∧
           (∀ j0 r0, o = Some (j0, r0) → timestamp r < timestamp r0) ∧
           ∀ n' e, m !! n' = Some e → eligible e = true →
             timestamp r ≤ timestamp e.2 ∧ ((n' < n)%nat → timestamp r < timestamp e.2))
  end.
Proof.
  induction m as [|[k0 r0] m IH]; intros i o; simpl.
  { destruct o as [[j r]|]; [|done]. left. split; [done|]. by intros n e Hn. }
  specialize (IH (S i) (if eligible (k0, r0) then consider i r0 o else o)).
  destruct (pick (S i) m _) as [[j r]|].
  - destruct (eligible (k0, r0)) eqn:He.
    + destruct (consider_cases i r0 o) as [[Hc Hnew]|(j1 & r1 & -> & Hc & Hold)];
        rewrite Hc in IH.
      * destruct IH as [[Ho Hle]|(n & k & -> & Hn & Hel & Hlt & Hmin)].
        -- simplify_eq. right. exists 0%nat, k0.
           split_and!; [lia|done|done|done|].
           intros [|n'] e Hn' He'; simpl in *.
           ++ simplify_eq. simpl. lia.
           ++ split; [by eapply Hle|lia].
        -- specialize (Hlt _ _ eq_refl). right. exists (S n), k.
           split_and!; [lia|done|done| |].
           ++ intros j0 r' Ho. specialize (Hnew _ _ Ho). lia.
           ++ intros [|n'] e Hn' He'; simpl in *.
              ** simplify_eq. simpl. lia.
              ** destruct (Hmin _ _ Hn' He'). split; [done|]. intros ?. lia.
      * destruct IH as [[Ho Hle]|(n & k & -> & Hn & Hel & Hlt & Hmin)].
        -- simplify_eq. left. split; [done|].
           intros [|n'] e Hn' He'; simpl in *.
           ++ by simplify_eq.
           ++ by eapply Hle.
        -- specialize (Hlt _ _ eq_refl). right. exists (S n), k.
           split_and!; [lia|done|done| |].
           ++ by intros ?? [= <- <-].
           ++ intros [|n'] e Hn' He'; simpl in *.
              ** simplify_eq. simpl. lia.
              ** destruct (Hmin _ _ Hn' He'). split; [done|]. intros ?. lia.
    + destruct IH as [[Ho Hle]|(n & k & -> & Hn & Hel & Hlt & Hmin)].
      * left. split; [done|]. intros [|n'] e Hn' He'; simpl in *.
        -- simplify_eq. congruence.
        -- by eapply Hle.
      * right. exists (S n), k. split_and!; [lia|done|done|done|].
        intros [|n'] e Hn' He'; simpl in *.
        -- simplify_eq. congruence.
        -- destruct (Hmin _ _ Hn' He'). split; [done|]. intros ?. lia.
  - destruct IH as [Ho Hall]. destruct (eligible (k0, r0)) eqn:He.
    + exfalso. unfold consider in Ho. destruct o as [[? r1]|]; [|done].
      by destruct (timestamp r0 <? timestamp r1).
    + split; [done|]. by constructor.
Qed.

Lemma pick_oldest m :
  match pick 0 m None with
  | None => Forall (λ e, eligible e = false) m
  | Some (j, r) => (∃ k, m !! j = Some (k, r)) ∧ oldest_at m j
  end.
Proof.
  pose proof (pick_spec m 0 None) as H.
  destruct (pick 0 m None) as [[j r]|]; [|by destruct H].
  destruct H as [[? _]|(n & k & -> & Hn & Hel & _ & Hmin)]; [done|].
  simpl. split; [by exists k|]. exists (k, r). done.
Qed.

Lemma getPendingRequest_outcome now s : claim_outcome now s (getPendingRequest now s).
Proof.
  unfold getPendingRequest.
  pose proof (scan_fst now (pendingRequests s) 0 None) as Hfst.
  pose proof (scan_snd now (pendingRequests s) 0 None) as Hsnd.
  pose proof (pick_oldest (recover_all now (pendingRequests s))) as Hpick.
  destruct (scan now 0 (pendingRequests s) None) as [table o]; simpl in *.
  subst table. rewrite <- Hsnd in Hpick. destruct o as [[i r]|].
  - destruct Hpick as [[k Hi] Hold]. by eapply claimed.
  - by apply no_claim.
Qed.

(** ** The table as a [Map] *)

Lemma map_get_elem k m r : map_get k m = Some r → (k, r) ∈ m.
Proof.
  induction m as [|[k' v] m IH]; simpl; [done|].
  destruct (String.eqb_spec k k') as [->|Hne].
  - intros [= ->]. left.
  - intros H. right. by apply IH.
Qed.

Lemma map_get_None k m : map_get k m = None ↔ k ∉ keys m.
Proof.
  unfold keys. induction m as [|[k' v] m IH]; simpl.
  - split; [|done]. intros _ H. inversion H.
  - destruct (String.eqb_spec k k') as [->|Hne].
    + split; [done|]. intros H. destruct H. left.
    + rewrite IH. rewrite not_elem_of_cons. tauto.
Qed.

Lemma elem_map_get k m r : NoDup (keys m) → (k, r) ∈ m → map_get k m = Some r.
Proof.
  unfold keys. induction m as [|[k' v] m IH]; simpl; intros Hnd Hin.
  - inversion Hin.
  - apply NoDup_cons in Hnd as [Hk Hnd].
    apply elem_of_cons in Hin as [Heq|Hin].
    + simplify_eq. by rewrite String.eqb_refl.
    + destruct (String.eqb_spec k k') as [->|Hne]; [|by apply IH].
      destruct Hk. apply list_elem_of_fmap. by exists (k', r).
Qed.

Lemma map_delete_sublist k m : map_delete k m `sublist_of` m.
Proof.
  induction m as [|[k' v] m IH]; simpl; [done|].
  destruct (String.eqb k k'); [by apply sublist_cons|by apply sublist_skip].
Qed.

Lemma filter_all {A} (P : A → Prop) `{!∀ x, Decision (P x)} (l : list A) :
  Forall P l → filter P l = l.
Proof.
  induction 1 as [|x l Hx _ IH]; [done|].
  rewrite filter_cons, decide_True by done. by rewrite IH.
Qed.

Lemma map_delete_filter k m :
  NoDup (keys m) → map_delete k m = filter (λ e, e.1 ≠ k) m.
Proof.
  unfold keys. induction m as [|[k' v] m IH]; intros Hnd; [done|].
  rewrite fmap_cons in Hnd. apply NoDup_cons in Hnd as [Hk Hnd].
  cbn [map_delete]. destruct (String.eqb_spec k k') as [->|Hne].
  - rewrite filter_cons. rewrite decide_False by (simpl; tauto).
    symmetry. apply filter_all. apply Forall_forall. intros [k v'] Hin. simpl.
    intros ->. destruct Hk. apply list_elem_of_fmap. by exists (k', v').
  - rewrite filter_cons. rewrite decide_True by (simpl; congruence). by rewrite IH.
Qed.

Lemma map_delete_elem k m e :
  NoDup (keys m) → e ∈ map_delete k m ↔ e ∈ m ∧ e.1 ≠ k.
Proof.
  intros Hnd. rewrite map_delete_filter by done.
  rewrite list_elem_of_filter. tauto.
Qed.

Lemma map_get_delete_eq k m : NoDup (keys m) → map_get k (map_delete k m) = None.
Proof.
  intros Hnd. apply map_get_None. unfold keys.
  intros ([k' r] & -> & Hin)%list_elem_of_fmap.
  apply map_delete_elem in Hin as [_ Hne]; done.
Qed.

Lemma map_delete_absent k m : map_get k m = None → map_delete k m = m.
Proof.
  induction m as [|[k' v] m IH]; simpl; [done|].
  destruct (String.eqb k k'); [done|]. intros H. by rewrite IH.
Qed.

Lemma map_set_fresh k v m : map_get k m = None → map_set k v m = m ++ [(k, v)].
Proof.
  induction m as [|[k' v'] m IH]; simpl; [done|].
  destruct (String.eqb k k'); [done|]. intros H. by rewrite IH.
Qed.


Lemma Forall_sublist_of {A} (P : A → Prop) (l1 l2 : list A) :
  l1 `sublist_of` l2 → Forall P l2 → Forall P l1.
Proof.
  intros Hsub Hall. apply Forall_forall. intros x Hx.
  eapply Forall_forall; [done|]. by eapply elem_of_sublist.
Qed.

Lemma Forall_map_set (P : string * PendingRequest → Prop) k v m :
  Forall P m → P (k, v) → Forall P (map_set k v m).
Proof.
  intros Hall Hv. induction Hall as [|[k' v'] m Hx Hm IH]; simpl.
  - by constructor.
  - destruct (String.eqb k k'); by constructor.
Qed.

(** ** Tables of the individual operations *)

Lemma recover_all_lookup now m j : recover_all now m !! j = recover now <$> m !! j.
Proof. apply list_lookup_fmap. Qed.

Lemma recover_id now e : id (recover now e).2 = id e.2.
Proof. unfold recover. by destruct (stale now e.2). Qed.

Lemma recover_all_wf now m : wf_table m → wf_table (recover_all now m).
Proof.
  intros [Hnd Hid]. split.
  - by rewrite recover_all_keys.
  - unfold recover_all. apply Forall_fmap. eapply Forall_impl; [done|].
    intros e He. simpl. by rewrite recover_id, recover_fst.
Qed.

Lemma alter_mark_keys now i m : keys (alter (mark now) i m) = keys m.
Proof.
  unfold keys. rewrite (list_fmap_alter fst (mark now) (λ k, k)).
  - by apply list_alter_id.
  - by apply Forall_true.
Qed.

Lemma pendingRequests_resolveRequest k v s :
  pendingRequests (resolveRequest k v s) = map_delete k (pendingRequests s).
Proof.
  unfold resolveRequest. destruct (map_get k (pendingRequests s)) eqn:Hget; [done|].
  by rewrite map_delete_absent.
Qed.

Lemma pendingRequests_rejectRequest k v s :
  pendingRequests (rejectRequest k v s) = map_delete k (pendingRequests s).
Proof.
  unfold rejectRequest. destruct (map_get k (pendingRequests s)) eqn:Hget; [done|].
  by rewrite map_delete_absent.
Qed.

Lemma pendingRequests_fireTimeout t s :
  pendingRequests (fireTimeout t s) `sublist_of` pendingRequests s.
Proof.
  unfold fireTimeout. destruct (timers s !! t) as [tm|]; [|done].
  destruct (status tm); try done. simpl.
  destruct (map_has _ _); [apply map_delete_sublist|done].
Qed.

Lemma pendingRequests_cleanup_loop now entries : ∀ s,
  pendingRequests (cleanup_loop now entries s) `sublist_of` pendingRequests s.
Proof.
  induction entries as [|[k r] entries IH]; intros s; simpl; [done|].
  destruct (now - timestamp r >? requestTimeout); [|apply IH].
  etrans; [apply IH|]. simpl. apply map_delete_sublist.
Qed.

(** ** A live dispatch is not handed out again *)

Lemma stale_window now r :
  dispatched r = true → now - dispatchedAt r ≤ dispatchStaleTimeout → stale now r = false.
Proof.
  unfold stale. intros -> Hle. simpl.
  destruct (Z.gtb_spec (now - dispatchedAt r) dispatchStaleTimeout); [lia|done].
Qed.

Lemma live_dispatch_recover k t0 now m :
  now - t0 ≤ dispatchStaleTimeout →
  live_dispatch k t0 m → live_dispatch k t0 (recover_all now m).
Proof.
  intros Hnow Hlive. unfold live_dispatch, recover_all. apply Forall_fmap.
  eapply Forall_impl; [exact Hlive|]. intros [k' r] [Hid Hk]; simpl in *.
  unfold recover; simpl. destruct (stale now r) eqn:Hst; simpl; [|done].
  split; [done|]. intros ->. destruct (Hk eq_refl) as [Hd Ht].
  rewrite stale_window in Hst; [done|done|]. by rewrite Ht.
Qed.

Lemma live_dispatch_claim k t0 now s :
  now - t0 ≤ dispatchStaleTimeout →
  live_dispatch k t0 (pendingRequests s) →
  live_dispatch k t0 (pendingRequests (getPendingRequest now s).1) ∧
  ∀ c, (getPendingRequest now s).2 = Some c → requestId c ≠ k.
Proof.
  intros Hnow Hlive.
  pose proof (live_dispatch_recover _ _ _ _ Hnow Hlive) as Hrec.
  destruct (getPendingRequest_outcome now s) as [Hnone|i k' r Hi Hold]; simpl.
  { done. }
  destruct Hold as (e & He & Hel & _). rewrite Hi in He. simplify_eq.
  unfold eligible in Hel. simpl in Hel. apply negb_true_iff in Hel.
  pose proof (proj1 (Forall_lookup _ _) Hrec _ _ Hi) as [Hid Hk]. simpl in *.
  assert (k' ≠ k) as Hne.
  { intros ->. destruct (Hk eq_refl). congruence. }
  split.
  - apply Forall_alter; [done|]. intros [k0 r0] Hi0 _. rewrite Hi in Hi0.
    simplify_eq. simpl. done.
  - intros c [= <-]. simpl. congruence.
Qed.

Lemma live_dispatch_step k t0 op s :
  admissible k t0 op →
  live_dispatch k t0 (pendingRequests s) →
  live_dispatch k t0 (pendingRequests (step op s).1) ∧
  ∀ c, (step op s).2 = Some c → requestId c ≠ k.
Proof.
  intros Hop Hlive. destruct op; simpl in *; try (split; [|done]).
  - apply Forall_map_set; [done|]. simpl. split; [done|]. by intros ?.
  - by apply live_dispatch_claim.
  - rewrite pendingRequests_resolveRequest.
    eapply Forall_sublist_of; [apply map_delete_sublist|done].
  - rewrite pendingRequests_rejectRequest.
    eapply Forall_sublist_of; [apply map_delete_sublist|done].
  - eapply Forall_sublist_of; [apply pendingRequests_cleanup_loop|done].
  - by constructor.
  - eapply Forall_sublist_of; [apply pendingRequests_fireTimeout|done].
Qed.

Lemma live_dispatch_run k t0 ops : ∀ s,
  Forall (admissible k t0) ops →
  live_dispatch k t0 (pendingRequests s) →
  Forall (λ o, ∀ c, o = Some c → requestId c ≠ k) (run ops s).2.
Proof.
  induction ops as [|op ops IH]; intros s Hops Hlive; simpl; [by constructor|].
  apply Forall_cons in Hops as [Hop Hops].
  destruct (live_dispatch_step _ _ _ _ Hop Hlive) as [Hlive' Hc].
  specialize (IH (step op s).1 Hops Hlive').
  destruct (step op s) as [s1 c]. simpl in *.
  destruct (run ops s1) as [s2 cs]. simpl in *.
  destruct op; try done. by constructor.
Qed.

(** After a claim, the claimed entry is dispatched since that claim. *)
Lemma claim_live_dispatch t0 s c :
  wf_table (pendingRequests s) →
  (getPendingRequest t0 s).2 = Some c →
  live_dispatch (requestId c) t0 (pendingRequests (getPendingRequest t0 s).1) ∧
  ∃ r, map_get (requestId c) (pendingRequests (getPendingRequest t0 s).1) = Some r ∧
       dispatched r = true ∧ dispatchedAt r = t0.
Proof.
  intros Hwf Hc. apply (recover_all_wf t0) in Hwf.
  destruct (getPendingRequest_outcome t0 s) as [Hnone|i k r Hi Hold]; simpl in *; [done|].
  simplify_eq. simpl. destruct Hwf as [Hnd Hid].
  pose proof (proj1 (Forall_lookup _ _) Hid _ _ Hi) as Hk. simpl in Hk. rewrite Hk.
  split.
  - apply Forall_lookup. intros j [k' r'] Hj.
    rewrite list_lookup_alter in Hj. case_decide as Hij.
    + subst j. rewrite Hi in Hj. unfold mark in Hj. simpl in Hj.
      injection Hj as <- <-. simpl. done.
    + pose proof (proj1 (Forall_lookup _ _) Hid _ _ Hj) as Hk'. simpl in *.
      split; [done|]. intros ->. destruct Hij.
      eapply (NoDup_lookup _ _ _ k); [exact Hnd|..]; unfold keys;
        rewrite list_lookup_fmap; [by rewrite Hi|by rewrite Hj].
  - exists (set_dispatch true t0 r). split; [|done].
    apply elem_map_get; [by rewrite alter_mark_keys|].
    apply list_elem_of_lookup. exists i.
    rewrite list_lookup_alter_eq, Hi. done.
Qed.

(** A concrete table is well formed by computation. *)
Ltac wf_by_computation :=
  split; [apply (bool_decide_unpack _); by vm_compute | by repeat constructor].

(** C1. At-most-one live dispatch.  Once [getPendingRequest], called at
    time [t0] on a table with unique keys, has returned an id, the entry
    of that id is dispatched since [t0], and no later [getPendingRequest]
    returns this id again, whatever calls are made in between, as long
    as the claims are made no later than 45 s after [t0] and no new
    request is given the same id.  Resolving or rejecting the request in
    between removes the entry, which is never returned again either. *)
Theorem at_most_one_live_dispatch s t0 c ops :
  wf_table (pendingRequests s) →
  (getPendingRequest t0 s).2 = Some c →
  Forall (admissible (requestId c) t0) ops →
  (∃ r, map_get (requestId c) (pendingRequests (getPendingRequest t0 s).1) = Some r ∧
        dispatched r = true ∧ dispatchedAt r = t0) ∧
  Forall (λ o, ∀ c', o = Some c' → requestId c' ≠ requestId c)
    (run ops (getPendingRequest t0 s).1).2.
Proof.
  intros Hwf Hc Hops.
  destruct (claim_live_dispatch _ _ _ Hwf Hc) as [Hlive Hentry].
  split; [done|]. by apply (live_dispatch_run _ t0).
Qed.

Lemma at_most_one_live_dispatch_witness :
  (∃ r, map_get "a" (pendingRequests one_claimed) = Some r ∧
        dispatched r = true ∧ dispatchedAt r = 10) ∧
  Forall (λ o, ∀ c', o = Some c' → requestId c' ≠ "a")
    (run [GetPendingRequest 20;
          SendRequest "d" 30 "get_selection" null;
          GetPendingRequest 45010;
          ResolveRequest "b" (text "ok");
          GetPendingRequest 45010;
          GetPendingRequest 45010] one_claimed).2.
Proof.
  apply (at_most_one_live_dispatch three_requests 10
           (mkClaim "a" "get_file_tree" (object [("path", text "/")]))).
  - wf_by_computation.
  - reflexivity.
  - repeat apply Forall_cons_2; try apply Forall_nil_2;
      simpl; unfold dispatchStaleTimeout; first [lia | done].
Defined.

(** ** Oldest first *)

Lemma alter_mark_insert now (i : nat) (m : Table) k r :
  m !! i = Some (k, r) → alter (mark now) i m = <[i := (k, set_dispatch true now r)]> m.
Proof.
  intros Hi. rewrite list_insert_alter. apply list_alter_ext; [|done].
  intros e He. rewrite Hi in He. by simplify_eq.
Qed.

Lemma getPendingRequest_selects now s :
  match (getPendingRequest now s).2 with
  | Some c =>
      ∃ i k r,
        recover_all now (pendingRequests s) !! i = Some (k, r) ∧
        oldest_at (recover_all now (pendingRequests s)) i ∧
        c = mkClaim (id r) (endpoint r) (data r) ∧
        (getPendingRequest now s).1 =
          with_table (<[i := (k, set_dispatch true now r)]>
                        (recover_all now (pendingRequests s))) s
  | None =>
      Forall (λ e, eligible e = false) (recover_all now (pendingRequests s)) ∧
      (getPendingRequest now s).1 = with_table (recover_all now (pendingRequests s)) s
  end.
Proof.
  destruct (getPendingRequest_outcome now s) as [Hnone|i k r Hi Hold]; simpl; [done|].
  exists i, k, r. by rewrite (alter_mark_insert _ _ _ _ _ Hi).
Qed.

Lemma three_in_order k1 k2 k3 t1 t2 t3 e1 e2 e3 d1 d2 d3 n1 n2 n3 s0 :
  pendingRequests s0 = [] →
  k1 ≠ k2 → k1 ≠ k3 → k2 ≠ k3 →
  t1 < t2 → t2 < t3 →
  n2 - n1 ≤ dispatchStaleTimeout →
  n3 - n1 ≤ dispatchStaleTimeout →
  n3 - n2 ≤ dispatchStaleTimeout →
  (run [SendRequest k1 t1 e1 d1; SendRequest k2 t2 e2 d2; SendRequest k3 t3 e3 d3;
        GetPendingRequest n1; GetPendingRequest n2; GetPendingRequest n3] s0).2
  = [Some (mkClaim k1 e1 d1); Some (mkClaim k2 e2 d2); Some (mkClaim k3 e3 d3)].
Proof.
  intros Hs0 H12 H13 H23 Ht12 Ht23 Hn21 Hn31 Hn32.
  apply String.eqb_neq in H12, H13, H23.
  assert ((k2 =? k1)%string = false) as H21 by (by rewrite String.eqb_sym).
  assert ((k3 =? k1)%string = false) as H31 by (by rewrite String.eqb_sym).
  assert ((k3 =? k2)%string = false) as H32 by (by rewrite String.eqb_sym).
  assert ((t2 <? t1) = false) as Hl21 by (apply Z.ltb_ge; lia).
  assert ((t3 <? t1) = false) as Hl31 by (apply Z.ltb_ge; lia).
  assert ((t3 <? t2) = false) as Hl32 by (apply Z.ltb_ge; lia).
  assert ((n2 - n1 >? dispatchStaleTimeout) = false) as Hg21
    by (rewrite Z.gtb_ltb; apply Z.ltb_ge; lia).
  assert ((n3 - n1 >? dispatchStaleTimeout) = false) as Hg31
    by (rewrite Z.gtb_ltb; apply Z.ltb_ge; lia).
  assert ((n3 - n2 >? dispatchStaleTimeout) = false) as Hg32
    by (rewrite Z.gtb_ltb; apply Z.ltb_ge; lia).
  unfold run, step, sendRequest, getPendingRequest. cbn [fst snd pendingRequests].
  rewrite Hs0. cbn [map_set]. rewrite H21. cbn [map_set]. rewrite H31, H32.
  cbn [scan dispatched consider timestamp]. rewrite Hl21.
  cbn [scan dispatched consider timestamp]. rewrite Hl31.
  cbn [alter list_alter mark fst snd with_table pendingRequests set_dispatch
       scan dispatched dispatchedAt consider timestamp].
  rewrite Hg21, Hl32.
  cbn [alter list_alter mark fst snd with_table pendingRequests set_dispatch
       scan dispatched dispatchedAt consider timestamp].
  rewrite Hg31, Hg32.
  reflexivity.
Qed.

(** C2 (amended).  Oldest-first selection.  For every state of the
    table, [getPendingRequest] selects, among the entries that are not
    dispatched once stale dispatches are recovered, the one with the
    smallest [timestamp], the first such in scan order; it sets that
    entry's [dispatched] to [true] and its [dispatchedAt] to [now] and
    returns its id, endpoint and data; when no entry is eligible it
    returns nothing.  In particular three requests sent at times
    [t1 < t2 < t3] to an empty table are returned in that order by three
    successive claims, provided each claim is made no more than 45 s
    after the claims before it. *)
Theorem oldest_first :
  (∀ now s,
     match (getPendingRequest now s).2 with
     | Some c =>
         ∃ i k r,
           recover_all now (pendingRequests s) !! i = Some (k, r) ∧
           oldest_at (recover_all now (pendingRequests s)) i ∧
           c = mkClaim (id r) (endpoint r) (data r) ∧
           (getPendingRequest now s).1 =
             with_table (<[i := (k, set_dispatch true now r)]>
                           (recover_all now (pendingRequests s))) s
     | None =>
         Forall (λ e, eligible e = false) (recover_all now (pendingRequests s)) ∧
         (getPendingRequest now s).1 = with_table (recover_all now (pendingRequests s)) s
     end) ∧
  (∀ k1 k2 k3 t1 t2 t3 e1 e2 e3 d1 d2 d3 n1 n2 n3 s0,
     pendingRequests s0 = [] →
     k1 ≠ k2 → k1 ≠ k3 → k2 ≠ k3 →
     t1 < t2 → t2 < t3 →
     n2 - n1 ≤ dispatchStaleTimeout →
     n3 - n1 ≤ dispatchStaleTimeout →
     n3 - n2 ≤ dispatchStaleTimeout →
     (run [SendRequest k1 t1 e1 d1; SendRequest k2 t2 e2 d2; SendRequest k3 t3 e3 d3;
           GetPendingRequest n1; GetPendingRequest n2; GetPendingRequest n3] s0).2
     = [Some (mkClaim k1 e1 d1); Some (mkClaim k2 e2 d2); Some (mkClaim k3 e3 d3)]).
Proof.
  split.
  - apply getPendingRequest_selects.
  - apply three_in_order.
Qed.

Lemma oldest_first_witness :
  (run [SendRequest "a" 1 "get_file_tree" (object [("path", text "/")]);
        SendRequest "b" 2 "set_property" (text "x");
        SendRequest "c" 3 "get_selection" null;
        GetPendingRequest 10; GetPendingRequest 20; GetPendingRequest 45010] initial).2
  = [Some (mkClaim "a" "get_file_tree" (object [("path", text "/")]));
     Some (mkClaim "b" "set_property" (text "x"));
     Some (mkClaim "c" "get_selection" null)].
Proof.
  apply (proj2 oldest_first); unfold dispatchStaleTimeout; first [done | lia].
Defined.

(** Without the bound on the clock the order of C2 fails: a second claim
    made 45.001 s after the first finds the first dispatch stale and
    returns the oldest request again, not the second one. *)
Lemma oldest_first_counterexample :
  claimed_ids
    (run [GetPendingRequest 10; GetPendingRequest 45011; GetPendingRequest 45012]
       three_requests).2
  = [Some "a"; Some "a"; Some "b"] ∧
  claimed_ids
    (run [GetPendingRequest 10; GetPendingRequest 45011; GetPendingRequest 45012]
       three_requests).2
  ≠ [Some "a"; Some "b"; Some "c"].
Proof. split; [reflexivity|discriminate]. Qed.

(** ** Stale-dispatch recovery *)

Lemma stale_true now r :
  stale now r = true ↔ dispatched r = true ∧ now - dispatchedAt r > dispatchStaleTimeout.
Proof.
  unfold stale. rewrite andb_true_iff.
  destruct (Z.gtb_spec (now - dispatchedAt r) dispatchStaleTimeout); split;
    intros [? ?]; split; first [done | lia].
Qed.







(** ** Re-claiming a stale dispatch *)

Lemma lookup_map_get (m : Table) j k r :
  NoDup (keys m) → m !! j = Some (k, r) → map_get k m = Some r.
Proof.
  intros Hnd Hj. apply elem_map_get; [done|]. apply list_elem_of_lookup. by exists j.
Qed.

Lemma getPendingRequest_keys now s :
  keys (pendingRequests (getPendingRequest now s).1) = keys (pendingRequests s).
Proof.
  destruct (getPendingRequest_outcome now s) as [Hnone|i k r Hi Hold]; simpl.
  - apply recover_all_keys.
  - by rewrite alter_mark_keys, recover_all_keys.
Qed.

Lemma getPendingRequest_host now s :
  timers (getPendingRequest now s).1 = timers s ∧
  promises (getPendingRequest now s).1 = promises s.
Proof. by destruct (getPendingRequest_outcome now s). Qed.

Lemma getPendingRequest_count now s :
  getPendingCount (getPendingRequest now s).1 = getPendingCount s.
Proof.
  unfold getPendingCount.
  rewrite <- (length_fmap fst (pendingRequests _)), <- (length_fmap fst (pendingRequests s)).
  f_equal. apply getPendingRequest_keys.
Qed.

(** C8 (amended).  Re-claiming a stale dispatch preserves the shape of
    the table.  When [getPendingRequest] returns the id of an entry that
    was dispatched, that dispatch was more than 45 s old; the call
    changes, of that entry, only [dispatched] and [dispatchedAt]; of the
    other entries it changes nothing except that those whose dispatch is
    stale as well are reset to [dispatched = false], [dispatchedAt = 0];
    it adds no entry, removes none, keeps the keys and their order and
    leaves [getPendingCount] as it was. *)
Theorem stale_reclaim_in_place now s c k r :
  wf_table (pendingRequests s) →
  map_get k (pendingRequests s) = Some r →
  dispatched r = true →
  (getPendingRequest now s).2 = Some c →
  requestId c = k →
  now - dispatchedAt r > dispatchStaleTimeout ∧
  getPendingCount (getPendingRequest now s).1 = getPendingCount s ∧
  keys (pendingRequests (getPendingRequest now s).1) = keys (pendingRequests s) ∧
  map_get k (pendingRequests (getPendingRequest now s).1) = Some (set_dispatch true now r) ∧
  (∀ k' r', k' ≠ k → map_get k' (pendingRequests s) = Some r' →
     map_get k' (pendingRequests (getPendingRequest now s).1)
       = Some (if stale now r' then set_dispatch false 0 r' else r')) ∧
  timers (getPendingRequest now s).1 = timers s ∧
  promises (getPendingRequest now s).1 = promises s.
Proof.
  intros Hwf Hget Hd Hc Hk.
  pose proof (getPendingRequest_keys now s) as Hkeys.
  pose proof (getPendingRequest_count now s) as Hcount.
  pose proof (getPendingRequest_host now s) as [Htm Hpr].
  assert (NoDup (keys (pendingRequests (getPendingRequest now s).1))) as Hnd'
    by (rewrite Hkeys; apply Hwf).
  pose proof (recover_all_wf now _ Hwf) as [Hndr Hidr].
  destruct Hwf as [Hnd Hid].
  destruct (getPendingRequest_outcome now s) as [Hnone|i k0 r0 Hi Hold];
    simpl in *; [done|].
  simplify_eq. simpl in *.
  pose proof (proj1 (Forall_lookup _ _) Hidr _ _ Hi) as Hk0. simpl in Hk0. subst k0.
  destruct Hold as (e & He & Hel & _). rewrite Hi in He. simplify_eq.
  unfold eligible in Hel. simpl in Hel. apply negb_true_iff in Hel.
  (* the entry at [i] before recovery is the entry of this id *)
  rewrite recover_all_lookup in Hi.
  destruct (pendingRequests s !! i) as [[k1 r1]|] eqn:Hi1; [|done].
  simpl in Hi. injection Hi as Hrec.
  assert (k1 = id r0) as ->.
  { pose proof (recover_fst now (k1, r1)) as Hf. by rewrite Hrec in Hf. }
  assert (r1 = r) as ->.
  { pose proof (lookup_map_get _ _ _ _ Hnd Hi1). congruence. }
  assert (stale now r = true) as Hst.
  { destruct (stale now r) eqn:Hst; [done|]. unfold recover in Hrec. simpl in Hrec.
    rewrite Hst in Hrec. simplify_eq. congruence. }
  unfold recover in Hrec. simpl in Hrec. rewrite Hst in Hrec.
  injection Hrec as <-. simpl in *.
  split_and!; try done.
  - by apply stale_true in Hst as [_ ?].
  - eapply lookup_map_get; [done|]. rewrite list_lookup_alter_eq, recover_all_lookup, Hi1.
    simpl. unfold recover. simpl. by rewrite Hst.
  - intros k' r' Hne Hget'.
    apply map_get_elem, list_elem_of_lookup in Hget' as [j Hj].
    assert (i ≠ j) as Hij by (intros ->; rewrite Hi1 in Hj; by simplify_eq).
    eapply lookup_map_get; [done|].
    rewrite list_lookup_alter_ne, recover_all_lookup, Hj by done.
    simpl. unfold recover. simpl. by destruct (stale now r').
Qed.

Lemma stale_reclaim_in_place_witness :
  45025 - dispatchedAt (set_dispatch true 10 request_a) > dispatchStaleTimeout ∧
  getPendingCount (getPendingRequest 45025 all_claimed).1 = getPendingCount all_claimed ∧
  keys (pendingRequests (getPendingRequest 45025 all_claimed).1)
    = keys (pendingRequests all_claimed) ∧
  map_get "a" (pendingRequests (getPendingRequest 45025 all_claimed).1)
    = Some (set_dispatch true 45025 (set_dispatch true 10 request_a)) ∧
  (∀ k' r', k' ≠ "a" → map_get k' (pendingRequests all_claimed) = Some r' →
     map_get k' (pendingRequests (getPendingRequest 45025 all_claimed).1)
       = Some (if stale 45025 r' then set_dispatch false 0 r' else r')) ∧
  timers (getPendingRequest 45025 all_claimed).1 = timers all_claimed ∧
  promises (getPendingRequest 45025 all_claimed).1 = promises all_claimed.
Proof.
  apply (stale_reclaim_in_place 45025 all_claimed
           (mkClaim "a" "get_file_tree" (object [("path", text "/")]))).
  - wf_by_computation.
  - reflexivity.
  - reflexivity.
  - reflexivity.
  - reflexivity.
Defined.

(** Re-claiming one stale dispatch can change another entry: with the
    dispatches of "a" (at 10) and "b" (at 20) both stale at 45025, the
    claim returns "a" again and resets "b" on the way. *)
Lemma stale_reclaim_counterexample :
  (getPendingRequest 45025 all_claimed).2
    = Some (mkClaim "a" "get_file_tree" (object [("path", text "/")])) ∧
  map_get "a" (pendingRequests all_claimed) = Some (set_dispatch true 10 request_a) ∧
  map_get "b" (pendingRequests all_claimed) = Some (set_dispatch true 20 request_b) ∧
  map_get "b" (pendingRequests (getPendingRequest 45025 all_claimed).1)
    = Some (set_dispatch false 0 request_b) ∧
  map_get "b" (pendingRequests (getPendingRequest 45025 all_claimed).1)
    ≠ map_get "b" (pendingRequests all_claimed).
Proof. split_and!; try reflexivity. discriminate. Qed.

(** ** Removal and the invariant *)

Lemma alter_all_lookup {A B} (f : A → A) (ix : B → nat) (l : list B) : ∀ (xs : list A) i,
  NoDup (ix <$> l) →
  foldl (λ xs b, alter f (ix b) xs) xs l !! i
    = if decide (i ∈ ix <$> l) then f <$> xs !! i else xs !! i.
Proof.
  induction l as [|b l IH]; intros xs i Hnd; simpl.
  { done. }
  apply NoDup_cons in Hnd as [Hb Hnd]. rewrite IH by done.
  destruct (decide (i = ix b)) as [->|Hne].
  - rewrite (decide_False (P := ix b ∈ ix <$> l)) by done.
    rewrite decide_True by left. apply list_lookup_alter_eq.
  - rewrite !list_lookup_alter_ne by done.
    destruct (decide (i ∈ ix <$> l)).
    + rewrite decide_True; [done|by right].
    + rewrite decide_False; [done|]. rewrite not_elem_of_cons. done.
Qed.

Lemma NoDup_fmap_elem {A B} (f : A → B) (l : list A) x y :
  NoDup (f <$> l) → x ∈ l → y ∈ l → f x = f y → x = y.
Proof.
  intros Hnd [i Hi]%list_elem_of_lookup [j Hj]%list_elem_of_lookup Hxy.
  assert (i = j) as ->; [|congruence].
  eapply (NoDup_lookup _ _ _ (f x)); [exact Hnd|..]; rewrite list_lookup_fmap.
  - by rewrite Hi.
  - rewrite Hj. simpl. by rewrite Hxy.
Qed.

Lemma Inv_entry s e : Inv s → e ∈ pendingRequests s → entry_ok s e.
Proof. intros HI He. by eapply (proj1 (Forall_forall _ _) (inv_entries s HI)). Qed.

Lemma Inv_key_inj s e1 e2 :
  Inv s → e1 ∈ pendingRequests s → e2 ∈ pendingRequests s → e1.1 = e2.1 → e1 = e2.
Proof. intros HI. apply NoDup_fmap_elem, (inv_keys s HI). Qed.

Lemma Inv_handle_inj s e1 e2 :
  Inv s → e1 ∈ pendingRequests s → e2 ∈ pendingRequests s →
  resolve e1.2 = resolve e2.2 → e1 = e2.
Proof. intros HI. apply (NoDup_fmap_elem (λ e, resolve e.2)), (inv_handles s HI). Qed.

Lemma Inv_timeoutId_inj s e1 e2 :
  Inv s → e1 ∈ pendingRequests s → e2 ∈ pendingRequests s →
  timeoutId e1.2 = timeoutId e2.2 → e1 = e2.
Proof.
  intros HI H1 H2 Ht. apply (Inv_key_inj s); try done.
  destruct (Inv_entry _ _ HI H1) as (_ & _ & _ & Ht1).
  destruct (Inv_entry _ _ HI H2) as (_ & _ & _ & Ht2).
  rewrite Ht, Ht2 in Ht1. by simplify_eq.
Qed.

Lemma Inv_timeoutIds_NoDup s :
  Inv s → NoDup ((λ e, timeoutId e.2) <$> pendingRequests s).
Proof.
  intros HI. apply NoDup_fmap_2_strong.
  - intros e1 e2 H1 H2. by apply (Inv_timeoutId_inj s).
  - eapply NoDup_fmap_1, (inv_keys s HI).
Qed.

Section removal.
Context (f : Timer → Timer) (h : PendingRequest → nat) (o : Settlement).
Context (P : string * PendingRequest → Prop) `{!∀ e, Decision (P e)}.
Context (s : BridgeService).
Hypothesis f_unschedules : ∀ tm, status (f tm) ≠ Scheduled.
Hypothesis h_settles : ∀ e, e ∈ pendingRequests s → ¬ P e → h e.2 = resolve e.2.
Hypothesis HI : Inv s.

Local Abbreviation gone := (filter (λ e, ¬ P e) (pendingRequests s)).

Lemma gone_elem e : e ∈ gone ↔ e ∈ pendingRequests s ∧ ¬ P e.
Proof. rewrite list_elem_of_filter. tauto. Qed.

Lemma gone_sublist : gone `sublist_of` pendingRequests s.
Proof. apply sublist_filter. Qed.

Lemma gone_timeoutIds_NoDup : NoDup ((λ e, timeoutId e.2) <$> gone).
Proof.
  eapply sublist_NoDup; [by apply Inv_timeoutIds_NoDup|].
  apply fmap_sublist, gone_sublist.
Qed.

Lemma gone_handles : (λ e, h e.2) <$> gone = (λ e, resolve e.2) <$> gone.
Proof.
  apply list_fmap_ext. intros i e Hi.
  assert (e ∈ gone) as [He HP]%gone_elem by (apply list_elem_of_lookup; by exists i).
  by apply h_settles.
Qed.

Lemma gone_handles_NoDup : NoDup ((λ e, h e.2) <$> gone).
Proof.
  rewrite gone_handles. eapply sublist_NoDup; [apply (inv_handles s HI)|].
  apply fmap_sublist, gone_sublist.
Qed.

Lemma removal_timers t :
  timers (removal f h o P s) !! t
    = if decide (t ∈ (λ e, timeoutId e.2) <$> gone)
      then f <$> timers s !! t else timers s !! t.
Proof.
  apply (alter_all_lookup f (λ e : string * PendingRequest, timeoutId e.2)).
  apply gone_timeoutIds_NoDup.
Qed.

Lemma removal_promises p :
  promises (removal f h o P s) !! p
    = if decide (p ∈ (λ e, resolve e.2) <$> gone)
      then (λ calls, calls ++ [o]) <$> promises s !! p else promises s !! p.
Proof.
  rewrite <- gone_handles.
  apply (alter_all_lookup (λ calls, calls ++ [o]) (λ e : string * PendingRequest, h e.2)).
  apply gone_handles_NoDup.
Qed.

(** A removed entry: its timer went through [f], its promise got the
    one call. *)
Lemma removal_gone e :
  e ∈ pendingRequests s → ¬ P e →
  (e ∉ pendingRequests (removal f h o P s)) ∧
  timers (removal f h o P s) !! timeoutId e.2
    = Some (f (mkTimer requestTimeout e.1 (resolve e.2) Scheduled)) ∧
  promises (removal f h o P s) !! resolve e.2 = Some [o].
Proof.
  intros He HP. destruct (Inv_entry _ _ HI He) as (_ & _ & Hp & Ht).
  assert (e ∈ gone) as Hg by (by apply gone_elem).
  split_and!.
  - simpl. rewrite list_elem_of_filter. tauto.
  - rewrite removal_timers, decide_True, Ht; [done|].
    apply list_elem_of_fmap. by exists e.
  - rewrite removal_promises, decide_True, Hp; [done|].
    apply list_elem_of_fmap. by exists e.
Qed.

(** A kept entry: still there, timer and promise untouched. *)
Lemma removal_kept e :
  e ∈ pendingRequests s → P e →
  e ∈ pendingRequests (removal f h o P s) ∧
  timers (removal f h o P s) !! timeoutId e.2 = timers s !! timeoutId e.2 ∧
  promises (removal f h o P s) !! resolve e.2 = promises s !! resolve e.2.
Proof.
  intros He HP. split_and!.
  - simpl. by apply list_elem_of_filter.
  - rewrite removal_timers, decide_False; [done|].
    intros (g & Hgt & [Hg HgP]%gone_elem)%list_elem_of_fmap.
    apply HgP. by rewrite <- (Inv_timeoutId_inj s e g).
  - rewrite removal_promises, decide_False; [done|].
    intros (g & Hgt & [Hg HgP]%gone_elem)%list_elem_of_fmap.
    apply HgP. by rewrite <- (Inv_handle_inj s e g).
Qed.

(** Promises of no removed entry are untouched. *)
Lemma removal_frame p :
  (∀ e, e ∈ pendingRequests s → ¬ P e → resolve e.2 ≠ p) →
  promises (removal f h o P s) !! p = promises s !! p.
Proof.
  intros Hp. rewrite removal_promises, decide_False; [done|].
  intros (g & -> & [Hg HgP]%gone_elem)%list_elem_of_fmap. by eapply Hp.
Qed.

Lemma removal_Inv : Inv (removal f h o P s).
Proof.
  split.
  - simpl. eapply sublist_NoDup; [apply (inv_keys s HI)|].
    apply fmap_sublist, sublist_filter.
  - apply Forall_forall. intros e [HP He]%list_elem_of_filter.
    destruct (Inv_entry _ _ HI He) as (Hid & Hrej & Hp & Ht).
    destruct (removal_kept e He HP) as (_ & Ht' & Hp').
    split_and!; [done|done|by rewrite Hp'|by rewrite Ht'].
  - simpl. eapply sublist_NoDup; [apply (inv_handles s HI)|].
    apply fmap_sublist, sublist_filter.
  - intros t tm Ht Hsched. rewrite removal_timers in Ht.
    destruct (decide (t ∈ _)) as [Hin|Hnin].
    + destruct (timers s !! t) as [tm0|]; [|done]. simpl in Ht.
      simplify_eq. by destruct (f_unschedules tm0).
    + destruct (inv_timers s HI t tm Ht Hsched) as (r & Hr & Hrt).
      exists r. split; [|done]. simpl. apply list_elem_of_filter. split; [|done].
      destruct (decide (P (forRequest tm, r))) as [|HnP]; [done|].
      destruct Hnin. apply list_elem_of_fmap. exists (forRequest tm, r).
      split; [done|]. by apply gone_elem.
  - apply Forall_lookup. intros p calls Hp. rewrite removal_promises in Hp.
    destruct (decide (p ∈ _)) as [Hin|Hnin].
    + apply list_elem_of_fmap in Hin as (g & -> & [Hg _]%gone_elem).
      destruct (Inv_entry _ _ HI Hg) as (_ & _ & Hp0 & _).
      rewrite Hp0 in Hp. simpl in Hp. by simplify_eq.
    + by eapply (proj1 (Forall_lookup _ _) (inv_once s HI)).
Qed.
End removal.

(** ** Every removing operation is a removal *)

Lemma filter_none {A} (P : A → Prop) `{!∀ x, Decision (P x)} (l : list A) :
  Forall (λ x, ¬ P x) l → filter P l = [].
Proof.
  induction 1 as [|x l Hx _ IH]; [done|].
  by rewrite filter_cons, decide_False.
Qed.

Lemma filter_key k r m :
  NoDup (keys m) → map_get k m = Some r → filter (λ e, ¬ e.1 ≠ k) m = [(k, r)].
Proof.
  unfold keys. induction m as [|[k' v] m IH]; intros Hnd Hget; [done|].
  rewrite fmap_cons in Hnd. apply NoDup_cons in Hnd as [Hk Hnd].
  cbn [map_get] in Hget. rewrite filter_cons.
  destruct (String.eqb_spec k k') as [->|Hne].
  - simplify_eq. rewrite decide_True by (simpl; tauto).
    f_equal. apply filter_none, Forall_forall. intros [k v'] Hin Hk'. simpl in *.
    apply Hk' . intros ->. apply Hk. apply list_elem_of_fmap. by exists (k', v').
  - rewrite decide_False by (simpl; intros H; apply H; congruence). by apply IH.
Qed.

Lemma filter_key_absent k m :
  map_get k m = None → filter (λ e, ¬ e.1 ≠ k) m = [].
Proof.
  intros Hget%map_get_None. apply filter_none, Forall_forall.
  intros [k' v] Hin Hk. simpl in *. apply Hk. intros ->.
  apply Hget. apply list_elem_of_fmap. by exists (k, v).
Qed.

Lemma resolveRequest_removal k v s :
  NoDup (keys (pendingRequests s)) →
  resolveRequest k v s = removal cancel resolve (Fulfilled v) (λ e, e.1 ≠ k) s.
Proof.
  intros Hnd. unfold resolveRequest, removal.
  rewrite <- map_delete_filter by done.
  destruct (map_get k (pendingRequests s)) as [r|] eqn:Hget.
  - by rewrite (filter_key k r).
  - rewrite filter_key_absent, map_delete_absent by done. by destruct s.
Qed.

Lemma rejectRequest_removal k err s :
  NoDup (keys (pendingRequests s)) →
  rejectRequest k err s = removal cancel reject (Rejected err) (λ e, e.1 ≠ k) s.
Proof.
  intros Hnd. unfold rejectRequest, removal.
  rewrite <- map_delete_filter by done.
  destruct (map_get k (pendingRequests s)) as [r|] eqn:Hget.
  - by rewrite (filter_key k r).
  - rewrite filter_key_absent, map_delete_absent by done. by destruct s.
Qed.

Lemma clear_loop_fold o entries : ∀ s,
  o = Rejected (Error "Connection closed") →
  clear_loop entries s
  = {| pendingRequests := pendingRequests s;
       timers := foldl (λ tms e, alter cancel (timeoutId e.2) tms) (timers s) entries;
       promises := foldl (λ ps e, alter (λ calls, calls ++ [o]) (reject e.2) ps)
                     (promises s) entries |}.
Proof.
  intros s ->. revert s.
  induction entries as [|[k r] entries IH]; intros s; simpl; [by destruct s|].
  by rewrite IH.
Qed.

Lemma clearAllPendingRequests_removal s :
  clearAllPendingRequests s
  = removal cancel reject (Rejected (Error "Connection closed")) (λ _, False) s.
Proof.
  unfold clearAllPendingRequests, removal.
  rewrite (clear_loop_fold _ _ _ eq_refl). unfold with_table. simpl.
  rewrite (filter_none (λ _, False)) by (apply Forall_forall; tauto).
  rewrite (filter_all (λ _, ¬ False)) by (apply Forall_forall; tauto).
  done.
Qed.

Lemma map_delete_middle k r (done rest : Table) :
  k ∉ keys done → map_delete k (done ++ (k, r) :: rest) = done ++ rest.
Proof.
  unfold keys. induction done as [|[k' v] done IH]; simpl; intros Hk.
  - by rewrite String.eqb_refl.
  - apply not_elem_of_cons in Hk as [Hne Hk].
    destruct (String.eqb_spec k k'); [done|]. by rewrite IH.
Qed.

Lemma cleanup_loop_removal now entries : ∀ done s,
  pendingRequests s = done ++ entries →
  NoDup (keys (done ++ entries)) →
  Forall (unexpired now) done →
  cleanup_loop now entries s
  = removal cancel reject (Rejected (Error "Request timeout")) (unexpired now) s.
Proof.
  induction entries as [|[k r] entries IH]; intros done s Htable Hnd Hdone.
  - rewrite app_nil_r in Htable. simpl. unfold removal. rewrite Htable.
    rewrite filter_all by done.
    rewrite filter_none by (eapply Forall_impl; [done|]; tauto).
    destruct s; simpl in *. by subst.
  - cbn [cleanup_loop].
    destruct (Z.gtb_spec (now - timestamp r) requestTimeout) as [Hexp|Hfresh].
    + erewrite (IH done).
      * unfold removal. simpl. rewrite Htable.
        rewrite map_delete_middle.
        2:{ unfold keys in *. rewrite fmap_app in Hnd. apply NoDup_app in Hnd as (_ & Hnd & _).
            intros Hk. apply (Hnd _ Hk). simpl. left. }
        rewrite !filter_app, !filter_cons.
        rewrite (decide_False (P := unexpired now (k, r))) by (unfold unexpired; simpl; lia).
        rewrite (decide_True (P := ¬ unexpired now (k, r))) by (unfold unexpired; simpl; lia).
        rewrite (filter_none (λ e, ¬ unexpired now e) done)
          by (eapply Forall_impl; [done|]; tauto).
        done.
      * simpl. rewrite Htable. apply map_delete_middle.
        unfold keys in *. rewrite fmap_app in Hnd. apply NoDup_app in Hnd as (_ & Hnd & _).
        intros Hk. apply (Hnd _ Hk). simpl. left.
      * unfold keys in *. rewrite fmap_app in *. simpl in Hnd.
        apply NoDup_app in Hnd as (Hd & Hdis & Hr). apply NoDup_cons in Hr as [_ Hr].
        apply NoDup_app. split_and!; [done| |done].
        intros x Hx Hx'. apply (Hdis _ Hx). by right.
      * done.
    + apply (IH (done ++ [(k, r)])).
      * by rewrite <- app_assoc.
      * by rewrite <- app_assoc.
      * apply Forall_app. split; [done|]. constructor; [|done]. unfold unexpired. simpl. lia.
Qed.

Lemma cleanupOldRequests_removal now s :
  NoDup (keys (pendingRequests s)) →
  cleanupOldRequests now s
  = removal cancel reject (Rejected (Error "Request timeout")) (unexpired now) s.
Proof. intros Hnd. by apply (cleanup_loop_removal now _ []). Qed.

Lemma fireTimeout_idle t s :
  (∀ tm, timers s !! t = Some tm → status tm ≠ Scheduled) → fireTimeout t s = s.
Proof.
  intros Hidle. unfold fireTimeout. destruct (timers s !! t) as [tm|]; [|done].
  specialize (Hidle tm eq_refl). by destruct (status tm).
Qed.

Lemma fireTimeout_removal t tm s :
  Inv s → timers s !! t = Some tm → status tm = Scheduled →
  fireTimeout t s
  = removal fired (λ _, onTimeout tm) (Rejected (Error "Request timeout"))
      (λ e, e.1 ≠ forRequest tm) s.
Proof.
  intros HI Ht Hsched.
  destruct (inv_timers s HI t tm Ht Hsched) as (r & Hr & <-).
  pose proof (elem_map_get _ _ _ (inv_keys s HI) Hr) as Hget.
  unfold fireTimeout, removal. rewrite Ht, Hsched. cbn [pendingRequests].
  unfold map_has. rewrite Hget.
  rewrite <- map_delete_filter by apply (inv_keys s HI).
  rewrite (filter_key _ r) by (done || apply (inv_keys s HI)).
  unfold settle, with_table. simpl. f_equal.
  rewrite list_insert_alter. apply list_alter_ext; [|done].
  intros tm' Htm'. rewrite Ht in Htm'. by simplify_eq.
Qed.

(** ** The invariant holds in every reachable state *)

Lemma Inv_initial : Inv initial.
Proof. split; simpl; try by constructor. intros t tm Ht. by destruct t. Qed.

Lemma sendRequest_Inv k now e d s :
  map_get k (pendingRequests s) = None → Inv s → Inv (sendRequest k now e d s).1.
Proof.
  intros Hfresh HI. unfold sendRequest. cbn [fst].
  rewrite map_set_fresh by done. split; cbn [pendingRequests timers promises].
  - unfold keys. rewrite fmap_app. apply NoDup_app. split_and!.
    + apply (inv_keys s HI).
    + intros x Hx Hx'%list_elem_of_singleton. simpl in Hx'. subst x.
      by apply map_get_None in Hfresh.
    + apply NoDup_singleton.
  - apply Forall_app. split.
    + apply Forall_forall. intros e0 He0.
      destruct (Inv_entry _ _ HI He0) as (Hid & Hrej & Hp & Ht).
      split_and!; [done|done|by apply lookup_app_l_Some|by apply lookup_app_l_Some].
    + constructor; [|done]. split_and!; simpl; try done.
      * by rewrite list_lookup_middle.
      * by rewrite list_lookup_middle.
  - rewrite fmap_app. apply NoDup_app. split_and!.
    + apply (inv_handles s HI).
    + intros p (e0 & -> & He0)%list_elem_of_fmap Hp%list_elem_of_singleton. simpl in Hp.
      destruct (Inv_entry _ _ HI He0) as (_ & _ & Hp0 & _).
      apply lookup_lt_Some in Hp0. lia.
    + apply NoDup_singleton.
  - intros t tm Ht Hsched. apply lookup_app_Some in Ht as [Ht|[Hlen Ht]].
    + destruct (inv_timers s HI t tm Ht Hsched) as (r & Hr & Hrt).
      exists r. split; [|done]. apply elem_of_app. by left.
    + apply list_lookup_singleton_Some in Ht as [Ht0 <-]. simpl.
      eexists. split; [apply elem_of_app; right; apply list_elem_of_singleton; done|].
      simpl. lia.
  - apply Forall_app. split; [apply (inv_once s HI)|]. constructor; [simpl; lia|done].
Qed.

Lemma same_request_keys m m' : Forall2 same_request m m' → keys m' = keys m.
Proof.
  unfold keys. induction 1 as [|e e' m m' [Hk _] _ IH]; [done|].
  rewrite !fmap_cons. by rewrite Hk, IH.
Qed.

Lemma same_request_handles m m' :
  Forall2 same_request m m' → (λ e, resolve e.2) <$> m' = (λ e, resolve e.2) <$> m.
Proof.
  induction 1 as [|e e' m m' [_ Hr] _ IH]; [done|].
  rewrite !fmap_cons, IH. f_equal. by rewrite Hr.
Qed.

Lemma Inv_same s m' :
  Inv s → Forall2 same_request (pendingRequests s) m' → Inv (with_table m' s).
Proof.
  intros HI Hsame. split; cbn [with_table pendingRequests timers promises].
  - rewrite (same_request_keys _ _ Hsame). apply (inv_keys s HI).
  - apply Forall_lookup. intros j e' Hj.
    destruct (Forall2_lookup_r _ _ _ _ _ Hsame Hj) as (e & He & Hk & Hr).
    apply list_elem_of_lookup_2 in He.
    destruct (Inv_entry _ _ HI He) as (Hid & Hrej & Hp & Ht).
    unfold entry_ok. rewrite Hk, Hr. simpl. done.
  - rewrite (same_request_handles _ _ Hsame). apply (inv_handles s HI).
  - intros t tm Ht Hsched.
    destruct (inv_timers s HI t tm Ht Hsched) as (r & [j Hj]%list_elem_of_lookup & Hrt).
    destruct (Forall2_lookup_l _ _ _ _ _ Hsame Hj) as ([k' r'] & Hj' & Hk & Hr).
    simpl in *. subst k'. exists r'. split; [by eapply list_elem_of_lookup_2|].
    rewrite Hr. simpl. done.
  - apply (inv_once s HI).
Qed.

Lemma same_request_recover now e : same_request e (recover now e).
Proof.
  unfold recover, same_request. destruct e as [k r]. simpl.
  destruct (stale now r); simpl; [done|]. by destruct r.
Qed.

Lemma same_request_mark now e e' : same_request e e' → same_request e (mark now e').
Proof. intros [Hk Hr]. split; [done|]. simpl. rewrite Hr. done. Qed.

Lemma getPendingRequest_same now s :
  Forall2 same_request (pendingRequests s) (pendingRequests (getPendingRequest now s).1).
Proof.
  assert (Forall2 same_request (pendingRequests s) (recover_all now (pendingRequests s)))
    as Hrec.
  { apply Forall2_fmap_r, Forall_Forall2_diag, Forall_forall.
    intros e _. apply same_request_recover. }
  destruct (getPendingRequest_outcome now s) as [Hnone|i k r Hi Hold]; simpl; [done|].
  apply Forall2_same_length_lookup_2.
  - rewrite length_alter. by eapply Forall2_length.
  - intros j e e' He He'. destruct (Forall2_lookup_l _ _ _ _ _ Hrec He) as (e0 & He0 & Hsame).
    rewrite list_lookup_alter in He'. case_decide; subst.
    + rewrite He0 in He'. simpl in He'. simplify_eq. by apply same_request_mark.
    + by simplify_eq.
Qed.

Lemma getPendingRequest_Inv now s : Inv s → Inv (getPendingRequest now s).1.
Proof.
  intros HI.
  assert ((getPendingRequest now s).1
          = with_table (pendingRequests (getPendingRequest now s).1) s) as ->.
  { by destruct (getPendingRequest_outcome now s). }
  apply Inv_same; [done|apply getPendingRequest_same].
Qed.

Lemma cancel_unschedules tm : status (cancel tm) ≠ Scheduled.
Proof. unfold cancel. by destruct (status tm) eqn:H; simpl; rewrite ?H. Qed.

Lemma Inv_reject_handle s e : Inv s → e ∈ pendingRequests s → reject e.2 = resolve e.2.
Proof. intros HI He. by destruct (Inv_entry _ _ HI He) as (_ & ? & _). Qed.

Lemma step_Inv op s : fresh_id op s → Inv s → Inv (step op s).1.
Proof.
  intros Hfresh HI. destruct op; cbn [step fst].
  - by apply sendRequest_Inv.
  - by apply getPendingRequest_Inv.
  - rewrite resolveRequest_removal by apply (inv_keys s HI).
    apply removal_Inv; [apply cancel_unschedules|done|done].
  - rewrite rejectRequest_removal by apply (inv_keys s HI).
    apply removal_Inv; [apply cancel_unschedules| |done].
    intros e0 He0 _. by apply (Inv_reject_handle s).
  - rewrite cleanupOldRequests_removal by apply (inv_keys s HI).
    apply removal_Inv; [apply cancel_unschedules| |done].
    intros e0 He0 _. by apply (Inv_reject_handle s).
  - rewrite clearAllPendingRequests_removal.
    apply removal_Inv; [apply cancel_unschedules| |done].
    intros e0 He0 _. by apply (Inv_reject_handle s).
  - destruct (timers s !! t) as [tm|] eqn:Ht.
    + destruct (status tm) eqn:Hsched;
        [|rewrite fireTimeout_idle; [done|]; intros tm' ?; simplify_eq; congruence..].
      * rewrite (fireTimeout_removal t tm) by done.
        apply removal_Inv; [done| |done].
        intros [k r] He0 Hk. simpl in *.
        assert (k = forRequest tm) as -> by (by destruct (decide (k = forRequest tm))).
        destruct (inv_timers s HI t tm Ht Hsched) as (r' & Hr' & <-).
        assert ((forRequest tm, r) = (forRequest tm, r')) as [= ->]
          by (by apply (Inv_key_inj s)).
        destruct (Inv_entry _ _ HI Hr') as (_ & _ & _ & Ht'). simpl in Ht'.
        rewrite Ht in Ht'. injection Ht' as Htm. by rewrite Htm.
    + rewrite fireTimeout_idle; [done|]. intros tm' ?. by simplify_eq.
Qed.

Lemma reachable_Inv s : reachable s → Inv s.
Proof. induction 1 as [|op s _ IH Hfresh]; [apply Inv_initial|by apply step_Inv]. Qed.

Lemma Inv_wf s : Inv s → wf_table (pendingRequests s).
Proof.
  intros HI. split; [apply (inv_keys s HI)|].
  eapply Forall_impl; [apply (inv_entries s HI)|]. by intros e (? & _).
Qed.

Lemma run_fst_cons op ops s : (run (op :: ops) s).1 = (run ops (step op s).1).1.
Proof. simpl. destruct (step op s) as [s1 c]. simpl. by destruct (run ops s1). Qed.

Lemma run_reachable ops : ∀ s, reachable s → run_fresh ops s → reachable (run ops s).1.
Proof.
  induction ops as [|op ops IH]; intros s Hs Hfresh; [done|].
  destruct Hfresh as [Hop Hfresh]. rewrite run_fst_cons.
  apply IH; [|done]. by apply reach_step.
Qed.

Lemma three_requests_reachable : reachable three_requests.
Proof. apply run_reachable; [apply reach_initial|]. by repeat split. Qed.

Lemma one_claimed_reachable : reachable one_claimed.
Proof. apply (reach_step (GetPendingRequest 10)); [apply three_requests_reachable|done]. Qed.

(** ** Terminal resolution *)

Lemma resolveRequest_absent k v s :
  map_get k (pendingRequests s) = None → resolveRequest k v s = s.
Proof. intros Hget. unfold resolveRequest. by rewrite Hget. Qed.

Lemma rejectRequest_absent k err s :
  map_get k (pendingRequests s) = None → rejectRequest k err s = s.
Proof. intros Hget. unfold rejectRequest. by rewrite Hget. Qed.

Lemma resolveRequest_present s k r v :
  Inv s → map_get k (pendingRequests s) = Some r →
  timers (resolveRequest k v s) !! timeoutId r
    = Some (mkTimer requestTimeout k (resolve r) Cancelled) ∧
  pendingRequests (resolveRequest k v s) = map_delete k (pendingRequests s) ∧
  map_get k (pendingRequests (resolveRequest k v s)) = None ∧
  promises (resolveRequest k v s) !! resolve r = Some [Fulfilled v] ∧
  (∀ p, p ≠ resolve r → promises (resolveRequest k v s) !! p = promises s !! p).
Proof.
  intros HI Hget. pose proof (map_get_elem _ _ _ Hget) as Hin.
  pose proof (inv_keys s HI) as Hnd.
  rewrite pendingRequests_resolveRequest, map_get_delete_eq by done.
  rewrite resolveRequest_removal by done.
  destruct (removal_gone cancel resolve (Fulfilled v) (λ e, e.1 ≠ k) s) with (e := (k, r))
    as (_ & Ht & Hp); try done.
  { simpl. tauto. }
  split_and!; try done.
  intros p Hp'. apply removal_frame; try done.
  intros [k' r'] Hin' Hk' <-. simpl in *.
  assert (k' = k) as -> by (by destruct (decide (k' = k))).
  assert ((k, r') = (k, r)) as [= ->] by (by apply (Inv_key_inj s)). done.
Qed.

Lemma rejectRequest_present s k r err :
  Inv s → map_get k (pendingRequests s) = Some r →
  timers (rejectRequest k err s) !! timeoutId r
    = Some (mkTimer requestTimeout k (resolve r) Cancelled) ∧
  pendingRequests (rejectRequest k err s) = map_delete k (pendingRequests s) ∧
  map_get k (pendingRequests (rejectRequest k err s)) = None ∧
  promises (rejectRequest k err s) !! reject r = Some [Rejected err] ∧
  (∀ p, p ≠ reject r → promises (rejectRequest k err s) !! p = promises s !! p).
Proof.
  intros HI Hget. pose proof (map_get_elem _ _ _ Hget) as Hin.
  pose proof (inv_keys s HI) as Hnd.
  pose proof (Inv_reject_handle s _ HI Hin) as Hrej. simpl in Hrej. rewrite Hrej.
  rewrite pendingRequests_rejectRequest, map_get_delete_eq by done.
  rewrite rejectRequest_removal by done.
  assert (∀ e, e ∈ pendingRequests s → ¬ e.1 ≠ k → reject e.2 = resolve e.2) as Hh
    by (intros e0 He0 _; by apply (Inv_reject_handle s)).
  destruct (removal_gone cancel reject (Rejected err) (λ e, e.1 ≠ k) s) with (e := (k, r))
    as (_ & Ht & Hp); try done.
  { simpl. tauto. }
  split_and!; try done.
  intros p Hp'. apply removal_frame; try done.
  intros [k' r'] Hin' Hk' <-. simpl in *.
  assert (k' = k) as -> by (by destruct (decide (k' = k))).
  assert ((k, r') = (k, r)) as [= ->] by (by apply (Inv_key_inj s)). done.
Qed.

(** C4. Terminal resolution is exactly-once and idempotent.  In a state
    that satisfies the invariant (every reachable state does,
    [reachable_Inv]), for an id
    present in the table, [resolveRequest] cancels the entry's timer,
    which was scheduled, removes the entry, and calls the [resolve]
    function of the entry's promise, which nobody had called, exactly
    once with the given response; [rejectRequest] does the same with
    [reject] and the given error.  After either, a further
    [resolveRequest] or [rejectRequest] with the same id changes
    nothing, and the invariant, by which no promise has received more
    than one call, still holds. *)
Theorem terminal_resolution s k r v err :
  Inv s →
  map_get k (pendingRequests s) = Some r →
  (timers s !! timeoutId r = Some (mkTimer requestTimeout k (resolve r) Scheduled) ∧
   promises s !! resolve r = Some [] ∧ reject r = resolve r) ∧
  (timers (resolveRequest k v s) !! timeoutId r
     = Some (mkTimer requestTimeout k (resolve r) Cancelled) ∧
   pendingRequests (resolveRequest k v s) = map_delete k (pendingRequests s) ∧
   map_get k (pendingRequests (resolveRequest k v s)) = None ∧
   promises (resolveRequest k v s) !! resolve r = Some [Fulfilled v] ∧
   (∀ v', resolveRequest k v' (resolveRequest k v s) = resolveRequest k v s) ∧
   (∀ err', rejectRequest k err' (resolveRequest k v s) = resolveRequest k v s) ∧
   Inv (resolveRequest k v s)) ∧
  (timers (rejectRequest k err s) !! timeoutId r
     = Some (mkTimer requestTimeout k (resolve r) Cancelled) ∧
   pendingRequests (rejectRequest k err s) = map_delete k (pendingRequests s) ∧
   map_get k (pendingRequests (rejectRequest k err s)) = None ∧
   promises (rejectRequest k err s) !! reject r = Some [Rejected err] ∧
   (∀ v', resolveRequest k v' (rejectRequest k err s) = rejectRequest k err s) ∧
   (∀ err', rejectRequest k err' (rejectRequest k err s) = rejectRequest k err s) ∧
   Inv (rejectRequest k err s)).
Proof.
  intros HI Hget.
  destruct (Inv_entry s (k, r) HI (map_get_elem _ _ _ Hget)) as (_ & Hrej & Hp0 & Ht0).
  split; [done|]. split.
  - destruct (resolveRequest_present s k r v HI Hget) as (Ht & Htab & Hnone & Hp & _).
    split_and!; try done.
    + intros v'. by apply resolveRequest_absent.
    + intros err'. by apply rejectRequest_absent.
    + by apply (step_Inv (ResolveRequest k v)).
  - destruct (rejectRequest_present s k r err HI Hget) as (Ht & Htab & Hnone & Hp & _).
    split_and!; try done.
    + intros v'. by apply resolveRequest_absent.
    + intros err'. by apply rejectRequest_absent.
    + by apply (step_Inv (RejectRequest k err)).
Qed.

Lemma terminal_resolution_witness :
  (timers one_claimed !! 0%nat = Some (mkTimer requestTimeout "a" 0 Scheduled) ∧
   promises one_claimed !! 0%nat = Some [] ∧ 0%nat = 0%nat) ∧
  (timers (resolveRequest "a" (text "ok") one_claimed) !! 0%nat
     = Some (mkTimer requestTimeout "a" 0 Cancelled) ∧
   pendingRequests (resolveRequest "a" (text "ok") one_claimed)
     = map_delete "a" (pendingRequests one_claimed) ∧
   map_get "a" (pendingRequests (resolveRequest "a" (text "ok") one_claimed)) = None ∧
   promises (resolveRequest "a" (text "ok") one_claimed) !! 0%nat
     = Some [Fulfilled (text "ok")] ∧
   (∀ v', resolveRequest "a" v' (resolveRequest "a" (text "ok") one_claimed)
          = resolveRequest "a" (text "ok") one_claimed) ∧
   (∀ err', rejectRequest "a" err' (resolveRequest "a" (text "ok") one_claimed)
            = resolveRequest "a" (text "ok") one_claimed) ∧
   Inv (resolveRequest "a" (text "ok") one_claimed)) ∧
  (timers (rejectRequest "a" (Error "failed") one_claimed) !! 0%nat
     = Some (mkTimer requestTimeout "a" 0 Cancelled) ∧
   pendingRequests (rejectRequest "a" (Error "failed") one_claimed)
     = map_delete "a" (pendingRequests one_claimed) ∧
   map_get "a" (pendingRequests (rejectRequest "a" (Error "failed") one_claimed)) = None ∧
   promises (rejectRequest "a" (Error "failed") one_claimed) !! 0%nat
     = Some [Rejected (Error "failed")] ∧
   (∀ v', resolveRequest "a" v' (rejectRequest "a" (Error "failed") one_claimed)
          = rejectRequest "a" (Error "failed") one_claimed) ∧
   (∀ err', rejectRequest "a" err' (rejectRequest "a" (Error "failed") one_claimed)
            = rejectRequest "a" (Error "failed") one_claimed) ∧
   Inv (rejectRequest "a" (Error "failed") one_claimed)).
Proof.
  apply (terminal_resolution one_claimed "a" (set_dispatch true 10 request_a)
           (text "ok") (Error "failed")).
  - apply reachable_Inv, one_claimed_reachable.
  - reflexivity.
Defined.

(** C5. Resolving or rejecting an unknown id is a silent no-op: for an
    id that is not in the table, [resolveRequest] and [rejectRequest]
    return the state they were given, with the same table, timers and
    promises; nothing is settled. *)
Theorem unknown_id_noop s k v err :
  map_get k (pendingRequests s) = None →
  resolveRequest k v s = s ∧ rejectRequest k err s = s.
Proof.
  intros Hget. split; [by apply resolveRequest_absent|by apply rejectRequest_absent].
Qed.

Lemma unknown_id_noop_witness :
  resolveRequest "zz" (text "late") one_claimed = one_claimed ∧
  rejectRequest "zz" (Error "late") one_claimed = one_claimed.
Proof. apply unknown_id_noop. reflexivity. Defined.

(** ** Bulk clear *)

(** C6. [clearAllPendingRequests] empties the table and rejects every
    request exactly once.  In a state that satisfies the invariant
    (every reachable state does, [reachable_Inv]), for
    every entry of the table, dispatched or not, the call cancels the
    entry's timer and calls the [reject] function of its promise, which
    nobody had called, exactly once with the error "Connection closed";
    the promises of no entry are left as they were; afterwards the table
    is empty, [getPendingCount] is 0, no timer is scheduled any more,
    and a second call changes nothing. *)
Theorem clear_all_rejects_once s :
  Inv s →
  pendingRequests (clearAllPendingRequests s) = [] ∧
  getPendingCount (clearAllPendingRequests s) = 0%nat ∧
  (∀ k r, map_get k (pendingRequests s) = Some r →
     promises s !! reject r = Some [] ∧
     timers (clearAllPendingRequests s) !! timeoutId r
       = Some (mkTimer requestTimeout k (resolve r) Cancelled) ∧
     promises (clearAllPendingRequests s) !! reject r
       = Some [Rejected (Error "Connection closed")]) ∧
  (∀ p, (∀ k r, map_get k (pendingRequests s) = Some r → reject r ≠ p) →
     promises (clearAllPendingRequests s) !! p = promises s !! p) ∧
  (∀ t tm, timers (clearAllPendingRequests s) !! t = Some tm → status tm ≠ Scheduled) ∧
  clearAllPendingRequests (clearAllPendingRequests s) = clearAllPendingRequests s ∧
  Inv (clearAllPendingRequests s).
Proof.
  intros HI.
  assert (∀ e, e ∈ pendingRequests s → ¬ False → reject e.2 = resolve e.2) as Hh
    by (intros e0 He0 _; by apply (Inv_reject_handle s)).
  pose proof (step_Inv ClearAllPendingRequests s I HI) as HI'. simpl in HI'.
  split_and!; try done.
  - intros k r Hget. pose proof (map_get_elem _ _ _ Hget) as Hin.
    destruct (Inv_entry _ _ HI Hin) as (_ & Hrej & Hp0 & _). simpl in Hrej, Hp0.
    rewrite clearAllPendingRequests_removal, !Hrej.
    destruct (removal_gone cancel reject (Rejected (Error "Connection closed"))
                (λ _, False) s) with (e := (k, r)) as (_ & Ht & Hp); try done.
    tauto.
  - intros p Hp. rewrite clearAllPendingRequests_removal.
    apply removal_frame; try done.
    intros [k r] Hin _ <-. simpl in Hp. eapply (Hp k r).
    + by apply elem_map_get; [apply (inv_keys s HI)|].
    + by apply (Inv_reject_handle s (k, r)).
  - intros t tm Ht Hsched.
    destruct (inv_timers _ HI' t tm Ht Hsched) as (r & Hr & _).
    simpl in Hr. by apply elem_of_nil in Hr.
Qed.

Lemma clear_all_rejects_once_witness :
  pendingRequests (clearAllPendingRequests one_claimed) = [] ∧
  getPendingCount (clearAllPendingRequests one_claimed) = 0%nat ∧
  (∀ k r, map_get k (pendingRequests one_claimed) = Some r →
     promises one_claimed !! reject r = Some [] ∧
     timers (clearAllPendingRequests one_claimed) !! timeoutId r
       = Some (mkTimer requestTimeout k (resolve r) Cancelled) ∧
     promises (clearAllPendingRequests one_claimed) !! reject r
       = Some [Rejected (Error "Connection closed")]) ∧
  (∀ p, (∀ k r, map_get k (pendingRequests one_claimed) = Some r → reject r ≠ p) →
     promises (clearAllPendingRequests one_claimed) !! p = promises one_claimed !! p) ∧
  (∀ t tm, timers (clearAllPendingRequests one_claimed) !! t = Some tm →
     status tm ≠ Scheduled) ∧
  clearAllPendingRequests (clearAllPendingRequests one_claimed)
    = clearAllPendingRequests one_claimed ∧
  Inv (clearAllPendingRequests one_claimed).
Proof. apply clear_all_rejects_once, reachable_Inv, one_claimed_reachable. Defined.

(** ** The expiry sweep *)

(** The sweep against the class field [requestTimeout]. *)
Lemma cleanupOldRequests_sweeps now s :
  Inv s →
  pendingRequests (cleanupOldRequests now s) = filter (unexpired now) (pendingRequests s) ∧
  (∀ k r, map_get k (pendingRequests s) = Some r →
     now - timestamp r > requestTimeout →
     map_get k (pendingRequests (cleanupOldRequests now s)) = None ∧
     timers (cleanupOldRequests now s) !! timeoutId r
       = Some (mkTimer requestTimeout k (resolve r) Cancelled) ∧
     promises (cleanupOldRequests now s) !! reject r
       = Some [Rejected (Error "Request timeout")]) ∧
  (∀ k r, map_get k (pendingRequests s) = Some r →
     now - timestamp r ≤ requestTimeout →
     map_get k (pendingRequests (cleanupOldRequests now s)) = Some r ∧
     timers (cleanupOldRequests now s) !! timeoutId r
       = Some (mkTimer requestTimeout k (resolve r) Scheduled) ∧
     promises (cleanupOldRequests now s) !! reject r = Some []) ∧
  Inv (cleanupOldRequests now s).
Proof.
  intros HI. pose proof (inv_keys s HI) as Hnd.
  assert (∀ e, e ∈ pendingRequests s → ¬ unexpired now e → reject e.2 = resolve e.2) as Hh
    by (intros e0 He0 _; by apply (Inv_reject_handle s)).
  pose proof (step_Inv (CleanupOldRequests now) s I HI) as HI'. simpl in HI'.
  rewrite cleanupOldRequests_removal in * by done.
  split_and!; try done.
  - intros k r Hget Hexp. pose proof (map_get_elem _ _ _ Hget) as Hin.
    destruct (Inv_entry _ _ HI Hin) as (_ & Hrej & _). simpl in Hrej. rewrite Hrej.
    destruct (removal_gone cancel reject (Rejected (Error "Request timeout"))
                (unexpired now) s) with (e := (k, r)) as (Hnin & Ht & Hp); try done.
    { unfold unexpired. simpl. lia. }
    split_and!; try done.
    destruct (map_get k (pendingRequests (removal _ _ _ _ s))) as [r'|] eqn:Hget'; [|done].
    apply map_get_elem in Hget'. destruct Hnin.
    assert ((k, r') ∈ pendingRequests s) as Hin'.
    { cbn [removal pendingRequests] in Hget'. by apply list_elem_of_filter in Hget' as [_ ?]. }
    assert ((k, r') = (k, r)) as [= ->] by (by apply (Inv_key_inj s)). done.
  - intros k r Hget Hfresh. pose proof (map_get_elem _ _ _ Hget) as Hin.
    destruct (Inv_entry _ _ HI Hin) as (_ & Hrej & Hp0 & Ht0). simpl in *. rewrite Hrej.
    destruct (removal_kept cancel reject (Rejected (Error "Request timeout"))
                (unexpired now) s) with (e := (k, r)) as (Hin' & Ht & Hp); try done.
    simpl in Ht, Hp. split_and!.
    + apply elem_map_get; [apply (inv_keys _ HI')|done].
    + by rewrite Ht.
    + by rewrite Hp.
Qed.

(** C7. [cleanupOldRequests] removes exactly the entries older than
    60 s.  In a state that satisfies the invariant (every reachable
    state does, [reachable_Inv]), the table after the call is the table
    before it without the entries whose [now - timestamp] exceeds
    60000 ms, the others in their order; for each entry over that age
    the call cancels its timer, removes it, and calls the [reject]
    function of its promise exactly once with the error
    "Request timeout"; each entry whose age is at most 60000 ms is still
    in the table with all its fields, its timer still scheduled and its
    promise still pending. *)
Theorem sweep_removes_expired now s :
  Inv s →
  pendingRequests (cleanupOldRequests now s)
    = filter (λ e, now - timestamp e.2 ≤ 60000) (pendingRequests s) ∧
  (∀ k r, map_get k (pendingRequests s) = Some r →
     now - timestamp r > 60000 →
     map_get k (pendingRequests (cleanupOldRequests now s)) = None ∧
     timers (cleanupOldRequests now s) !! timeoutId r
       = Some (mkTimer 60000 k (resolve r) Cancelled) ∧
     promises (cleanupOldRequests now s) !! reject r
       = Some [Rejected (Error "Request timeout")]) ∧
  (∀ k r, map_get k (pendingRequests s) = Some r →
     now - timestamp r ≤ 60000 →
     map_get k (pendingRequests (cleanupOldRequests now s)) = Some r ∧
     timers (cleanupOldRequests now s) !! timeoutId r
       = Some (mkTimer 60000 k (resolve r) Scheduled) ∧
     promises (cleanupOldRequests now s) !! reject r = Some []) ∧
  Inv (cleanupOldRequests now s).
Proof.
  intros HI.
  destruct (cleanupOldRequests_sweeps now s HI) as (Htable & Hgone & Hkept & HI').
  split_and!.
  - rewrite Htable. apply list_filter_iff. intros e. unfold unexpired, requestTimeout. done.
  - intros k r Hget Hage. apply (Hgone k r Hget). unfold requestTimeout. lia.
  - intros k r Hget Hage. apply (Hkept k r Hget). unfold requestTimeout. lia.
  - done.
Qed.

(** The sweep at clock 60002 of the three requests sent at 1, 2 and 3:
    "a", 60001 ms old, is removed and rejected; "b", exactly 60000 ms
    old, and "c" stay as they are. *)
Lemma sweep_removes_expired_witness :
  pendingRequests (cleanupOldRequests 60002 one_claimed)
    = [("b", request_b); ("c", request_c)] ∧
  (map_get "a" (pendingRequests (cleanupOldRequests 60002 one_claimed)) = None ∧
   timers (cleanupOldRequests 60002 one_claimed) !! 0%nat
     = Some (mkTimer 60000 "a" 0 Cancelled) ∧
   promises (cleanupOldRequests 60002 one_claimed) !! 0%nat
     = Some [Rejected (Error "Request timeout")]) ∧
  (map_get "b" (pendingRequests (cleanupOldRequests 60002 one_claimed)) = Some request_b ∧
   timers (cleanupOldRequests 60002 one_claimed) !! 1%nat
     = Some (mkTimer 60000 "b" 1 Scheduled) ∧
   promises (cleanupOldRequests 60002 one_claimed) !! 1%nat = Some []) ∧
  Inv (cleanupOldRequests 60002 one_claimed).
Proof.
  destruct (sweep_removes_expired 60002 one_claimed
              (reachable_Inv _ one_claimed_reachable))
    as (Htable & Hgone & Hkept & HI').
  split_and!.
  - rewrite Htable. reflexivity.
  - apply (Hgone "a" (set_dispatch true 10 request_a) eq_refl). simpl. lia.
  - apply (Hgone "a" (set_dispatch true 10 request_a) eq_refl). simpl. lia.
  - apply (Hgone "a" (set_dispatch true 10 request_a) eq_refl). simpl. lia.
  - apply (Hkept "b" request_b eq_refl). simpl. lia.
  - apply (Hkept "b" request_b eq_refl). simpl. lia.
  - apply (Hkept "b" request_b eq_refl). simpl. lia.
  - exact HI'.
Defined.

(** The sweep at 60002 on the example: "a" (sent at 1) goes, "b" (sent
    at 2, exactly 60 s old) and "c" stay. *)
Example sweep_example :
  keys (pendingRequests (cleanupOldRequests 60002 one_claimed)) = ["b"; "c"] ∧
  promises (cleanupOldRequests 60002 one_claimed)
    = [[Rejected (Error "Request timeout")]; []; []].
Proof. split; reflexivity. Qed.

(** ** Round trip *)

(** C9. Submit, claim, resolve.  After [sendRequest] with endpoint [e]
    and data [d] on an empty table, the next [getPendingRequest], at any
    time, returns the id of the request with [e] and [d] as they were
    given; the promise handed to the caller is still pending then, and
    [resolveRequest] with that id and a response [v] settles it with
    exactly [v]. *)
Theorem round_trip s k now e d now' v :
  pendingRequests s = [] →
  (getPendingRequest now' (sendRequest k now e d s).1).2 = Some (mkClaim k e d) ∧
  promises (getPendingRequest now' (sendRequest k now e d s).1).1
    !! (sendRequest k now e d s).2 = Some [] ∧
  promises (resolveRequest k v (getPendingRequest now' (sendRequest k now e d s).1).1)
    !! (sendRequest k now e d s).2 = Some [Fulfilled v].
Proof.
  intros Hempty. unfold sendRequest, getPendingRequest, resolveRequest.
  cbn [fst snd pendingRequests]. rewrite Hempty.
  cbn [map_set scan dispatched consider alter list_alter with_table pendingRequests
       mark fst snd map_get]. rewrite String.eqb_refl.
  cbn [settle clearTimeout with_table promises timers pendingRequests resolve
       set_dispatch id endpoint data].
  split_and!.
  - done.
  - by rewrite list_lookup_middle.
  - rewrite list_lookup_alter_eq, list_lookup_middle by done. done.
Qed.

Lemma round_trip_witness :
  (getPendingRequest 5
     (sendRequest "a" 1 "get_file_tree" (object [("path", text "/")]) initial).1).2
    = Some (mkClaim "a" "get_file_tree" (object [("path", text "/")])) ∧
  promises (getPendingRequest 5
     (sendRequest "a" 1 "get_file_tree" (object [("path", text "/")]) initial).1).1
    !! (sendRequest "a" 1 "get_file_tree" (object [("path", text "/")]) initial).2
    = Some [] ∧
  promises (resolveRequest "a" (object [("files", array [text "a.lua"])])
     (getPendingRequest 5
        (sendRequest "a" 1 "get_file_tree" (object [("path", text "/")]) initial).1).1)
    !! (sendRequest "a" 1 "get_file_tree" (object [("path", text "/")]) initial).2
    = Some [Fulfilled (object [("files", array [text "a.lua"])])].
Proof. apply round_trip. reflexivity. Defined.

(** ** Resolution does not look at the dispatch state *)

Lemma map_get_set_eq k x m : map_get k (map_set k x m) = Some x.
Proof.
  induction m as [|[k' v'] m IH]; simpl.
  - by rewrite String.eqb_refl.
  - destruct (String.eqb k k') eqn:Hk; simpl; [by rewrite String.eqb_refl|by rewrite Hk].
Qed.

Lemma map_delete_set k x m : map_delete k (map_set k x m) = map_delete k m.
Proof.
  induction m as [|[k' v'] m IH]; simpl.
  - by rewrite String.eqb_refl.
  - destruct (String.eqb k k') eqn:Hk; simpl.
    + by rewrite String.eqb_refl.
    + by rewrite Hk, IH.
Qed.

(** C10. [resolveRequest] and [rejectRequest] do not require the entry
    to be dispatched.  For an id present in the table, the state they
    produce is the same whatever [dispatched] and [dispatchedAt] of the
    entry are; so, in a state that satisfies the invariant (every
    reachable state does, [reachable_Inv]), a request
    that was never claimed, one that is dispatched and one whose
    dispatch was reset are all removed and their promise settled with
    the given response or error. *)
Theorem resolution_ignores_dispatch s k r v err :
  Inv s →
  map_get k (pendingRequests s) = Some r →
  (∀ d t,
     resolveRequest k v
       (with_table (map_set k (set_dispatch d t r) (pendingRequests s)) s)
       = resolveRequest k v s ∧
     rejectRequest k err
       (with_table (map_set k (set_dispatch d t r) (pendingRequests s)) s)
       = rejectRequest k err s) ∧
  map_get k (pendingRequests (resolveRequest k v s)) = None ∧
  promises (resolveRequest k v s) !! resolve r = Some [Fulfilled v] ∧
  map_get k (pendingRequests (rejectRequest k err s)) = None ∧
  promises (rejectRequest k err s) !! reject r = Some [Rejected err].
Proof.
  intros HI Hget.
  destruct (resolveRequest_present s k r v HI Hget) as (_ & _ & Hnone & Hp & _).
  destruct (rejectRequest_present s k r err HI Hget) as (_ & _ & Hnone' & Hp' & _).
  split_and!; try done.
  intros d t. unfold resolveRequest, rejectRequest. cbn [with_table pendingRequests].
  rewrite map_get_set_eq, Hget.
  cbn [clearTimeout with_table pendingRequests settle timers promises].
  by rewrite map_delete_set.
Qed.

Lemma resolution_ignores_dispatch_witness :
  ((∀ d t,
      resolveRequest "b" (text "ok")
        (with_table (map_set "b" (set_dispatch d t request_b) (pendingRequests one_claimed))
           one_claimed)
        = resolveRequest "b" (text "ok") one_claimed ∧
      rejectRequest "b" (Error "failed")
        (with_table (map_set "b" (set_dispatch d t request_b) (pendingRequests one_claimed))
           one_claimed)
        = rejectRequest "b" (Error "failed") one_claimed) ∧
   map_get "b" (pendingRequests (resolveRequest "b" (text "ok") one_claimed)) = None ∧
   promises (resolveRequest "b" (text "ok") one_claimed) !! resolve request_b
     = Some [Fulfilled (text "ok")] ∧
   map_get "b" (pendingRequests (rejectRequest "b" (Error "failed") one_claimed)) = None ∧
   promises (rejectRequest "b" (Error "failed") one_claimed) !! reject request_b
     = Some [Rejected (Error "failed")]) ∧
  dispatched request_b = false ∧
  map_get "a" (pendingRequests one_claimed) = Some (set_dispatch true 10 request_a) ∧
  map_get "a" (pendingRequests (resolveRequest "a" (text "ok") one_claimed)) = None.
Proof.
  split; [|by repeat split].
  apply (resolution_ignores_dispatch one_claimed "b" request_b (text "ok") (Error "failed")).
  - apply reachable_Inv, one_claimed_reachable.
  - reflexivity.
Defined.

(** ** Scenarios and diagnostics *)

(** A request claimed at 10 and left unresolved is handed out again 46 s
    later; resolving it then settles the caller's promise, once. *)
Example stale_redispatch_scenario :
  claimed_ids (run [GetPendingRequest 10; GetPendingRequest 46010]
                 (sendRequest "a" 1 "set_property" (text "x") initial).1).2
    = [Some "a"; Some "a"] ∧
  promises (run [GetPendingRequest 10; GetPendingRequest 46010;
                 ResolveRequest "a" (text "ok")]
              (sendRequest "a" 1 "set_property" (text "x") initial).1).1
    = [[Fulfilled (text "ok")]].
Proof. split; reflexivity. Qed.

(** The overall timeout: the timer callback removes the request and
    rejects its promise; a response that arrives later is ignored. *)
Example overall_timeout_scenario :
  pendingRequests (run [TimeoutFires 0; ResolveRequest "a" (text "late")]
                     (sendRequest "a" 1 "set_property" (text "x") initial).1).1 = [] ∧
  promises (run [TimeoutFires 0; ResolveRequest "a" (text "late")]
              (sendRequest "a" 1 "set_property" (text "x") initial).1).1
    = [[Rejected (Error "Request timeout")]].
Proof. split; reflexivity. Qed.

Example diagnostics :
  getPendingCount three_requests = 3%nat ∧ getDispatchedCount three_requests = 0%nat ∧
  getPendingCount one_claimed = 3%nat ∧ getDispatchedCount one_claimed = 1%nat ∧
  getPendingCount (clearAllPendingRequests one_claimed) = 0%nat.
Proof. repeat split. Qed.

(** * Further properties *)

(** ** The timer callback *)

Lemma fireTimeout_present s k r :
  Inv s → map_get k (pendingRequests s) = Some r →
  fireTimeout (timeoutId r) s
  = removal fired (λ _, resolve r) (Rejected (Error "Request timeout")) (λ e, e.1 ≠ k) s.
Proof.
  intros HI Hget. pose proof (map_get_elem _ _ _ Hget) as Hin.
  destruct (Inv_entry _ _ HI Hin) as (_ & _ & _ & Ht). simpl in Ht.
  by rewrite (fireTimeout_removal _ _ s HI Ht eq_refl).
Qed.

(** X1. The callback of a request's timer (the function given to
    [setTimeout] in [sendRequest]), run while the request is still in
    the table: the timer has fired, the entry is deleted, and the
    [reject] function of its promise is called exactly once with the
    error "Request timeout"; no other promise is touched; a response
    that arrives afterwards for that id changes nothing. *)
Theorem timeout_callback_rejects s k r :
  Inv s →
  map_get k (pendingRequests s) = Some r →
  timers (fireTimeout (timeoutId r) s) !! timeoutId r
    = Some (mkTimer requestTimeout k (resolve r) Fired) ∧
  pendingRequests (fireTimeout (timeoutId r) s) = map_delete k (pendingRequests s) ∧
  map_get k (pendingRequests (fireTimeout (timeoutId r) s)) = None ∧
  promises (fireTimeout (timeoutId r) s) !! reject r
    = Some [Rejected (Error "Request timeout")] ∧
  (∀ p, p ≠ reject r →
     promises (fireTimeout (timeoutId r) s) !! p = promises s !! p) ∧
  (∀ v, resolveRequest k v (fireTimeout (timeoutId r) s) = fireTimeout (timeoutId r) s) ∧
  (∀ err, rejectRequest k err (fireTimeout (timeoutId r) s) = fireTimeout (timeoutId r) s).
Proof.
  intros HI Hget. pose proof (map_get_elem _ _ _ Hget) as Hin.
  pose proof (inv_keys s HI) as Hnd.
  pose proof (Inv_reject_handle s _ HI Hin) as Hrej. simpl in Hrej. rewrite Hrej.
  assert (∀ e, e ∈ pendingRequests s → ¬ e.1 ≠ k → resolve r = resolve e.2) as Hh.
  { intros [k' r'] Hin' Hk'. simpl in *.
    assert (k' = k) as -> by (by destruct (decide (k' = k))).
    by assert ((k, r') = (k, r)) as [= ->] by (by apply (Inv_key_inj s)). }
  assert (pendingRequests (fireTimeout (timeoutId r) s) = map_delete k (pendingRequests s))
    as Htab.
  { rewrite (fireTimeout_present s k r) by done. simpl. by rewrite map_delete_filter. }
  assert (map_get k (pendingRequests (fireTimeout (timeoutId r) s)) = None) as Hnone
    by (rewrite Htab; by apply map_get_delete_eq).
  destruct (removal_gone fired (λ _, resolve r) (Rejected (Error "Request timeout"))
              (λ e, e.1 ≠ k) s) with (e := (k, r)) as (_ & Ht & Hp); try done.
  { simpl. tauto. }
  rewrite <- (fireTimeout_present s k r) in Ht, Hp by done.
  split_and!; try done.
  - intros p Hp'. rewrite (fireTimeout_present s k r) by done.
    apply removal_frame; try done.
    intros e He HP <-. apply Hp'. symmetry. by apply Hh.
  - intros v. by apply resolveRequest_absent.
  - intros err. by apply rejectRequest_absent.
Qed.

Lemma timeout_callback_rejects_witness :
  timers (fireTimeout 1 one_claimed) !! 1%nat
    = Some (mkTimer requestTimeout "b" 1 Fired) ∧
  pendingRequests (fireTimeout 1 one_claimed) = map_delete "b" (pendingRequests one_claimed) ∧
  map_get "b" (pendingRequests (fireTimeout 1 one_claimed)) = None ∧
  promises (fireTimeout 1 one_claimed) !! 1%nat
    = Some [Rejected (Error "Request timeout")] ∧
  (∀ p, p ≠ 1%nat → promises (fireTimeout 1 one_claimed) !! p = promises one_claimed !! p) ∧
  (∀ v, resolveRequest "b" v (fireTimeout 1 one_claimed) = fireTimeout 1 one_claimed) ∧
  (∀ err, rejectRequest "b" err (fireTimeout 1 one_claimed) = fireTimeout 1 one_claimed).
Proof.
  apply (timeout_callback_rejects one_claimed "b" request_b).
  - apply reachable_Inv, one_claimed_reachable.
  - reflexivity.
Defined.

(** X2. A timer whose request was resolved or rejected is inert: should
    the host still run the callback, nothing changes, so the caller's
    promise is not settled a second time. *)
Theorem cancelled_timer_inert s k r v err :
  Inv s →
  map_get k (pendingRequests s) = Some r →
  fireTimeout (timeoutId r) (resolveRequest k v s) = resolveRequest k v s ∧
  fireTimeout (timeoutId r) (rejectRequest k err s) = rejectRequest k err s.
Proof.
  intros HI Hget.
  destruct (resolveRequest_present s k r v HI Hget) as (Ht & _).
  destruct (rejectRequest_present s k r err HI Hget) as (Ht' & _).
  split; apply fireTimeout_idle; intros tm Htm; simplify_eq; done.
Qed.

Lemma cancelled_timer_inert_witness :
  fireTimeout 0 (resolveRequest "a" (text "ok") one_claimed)
    = resolveRequest "a" (text "ok") one_claimed ∧
  fireTimeout 0 (rejectRequest "a" (Error "failed") one_claimed)
    = rejectRequest "a" (Error "failed") one_claimed.
Proof.
  apply (cancelled_timer_inert one_claimed "a" (set_dispatch true 10 request_a)).
  - apply reachable_Inv, one_claimed_reachable.
  - reflexivity.
Defined.

(** ** The diagnostics *)

Lemma count_dispatched_filter entries : ∀ count,
  count_dispatched entries count = (count + length (dispatched_entries entries))%nat.
Proof.
  unfold dispatched_entries.
  induction entries as [|[k r] entries IH]; intros count; simpl; [lia|].
  rewrite IH, filter_cons. simpl. destruct (dispatched r); simpl; lia.
Qed.

(** X3. [getDispatchedCount] is the number of entries whose [dispatched]
    is [true]; it never exceeds [getPendingCount], and the two agree
    exactly when every entry is dispatched. *)
Theorem getDispatchedCount_counts s :
  getDispatchedCount s = length (dispatched_entries (pendingRequests s)) ∧
  (getDispatchedCount s ≤ getPendingCount s)%nat ∧
  (getDispatchedCount s = getPendingCount s ↔
   Forall (λ e, dispatched e.2 = true) (pendingRequests s)).
Proof.
  unfold getDispatchedCount, getPendingCount. rewrite count_dispatched_filter. simpl.
  unfold dispatched_entries. split_and!; [done|apply length_filter|].
  split.
  - intros Hlen. induction (pendingRequests s) as [|e m IH]; [constructor|].
    rewrite filter_cons in Hlen. destruct (decide (dispatched e.2 = true)) as [Hd|Hd].
    + constructor; [done|]. apply IH. simpl in Hlen. lia.
    + pose proof (length_filter (λ e, dispatched e.2 = true) m). simpl in Hlen. lia.
  - intros Hall. by rewrite filter_all.
Qed.

Lemma recover_dispatched now e : dispatched (recover now e).2 = true ↔ live now e.
Proof.
  unfold recover, live. destruct (stale now e.2) eqn:Hst; simpl.
  - apply stale_true in Hst as [Hd Hlt]. split; [done|]. intros [_ ?]. lia.
  - split; [|tauto]. intros Hd. split; [done|].
    destruct (Z.gtb_spec (now - dispatchedAt e.2) dispatchStaleTimeout) as [Hgt|]; [|lia].
    assert (stale now e.2 = true) by (apply stale_true; split; [done|lia]). congruence.
Qed.

Lemma dispatched_recover_all now m :
  length (dispatched_entries (recover_all now m)) = length (filter (live now) m).
Proof.
  unfold dispatched_entries, recover_all.
  induction m as [|e m IH]; [done|].
  rewrite fmap_cons, !filter_cons.
  destruct (decide (dispatched (recover now e).2 = true)) as [Hd|Hd];
    destruct (decide (live now e)) as [Hl|Hl]; simpl.
  - by rewrite IH.
  - by apply recover_dispatched in Hd.
  - by apply recover_dispatched in Hl.
  - done.
Qed.

Lemma dispatched_alter_mark now (m : Table) : ∀ i e,
  m !! i = Some e → dispatched e.2 = false →
  length (dispatched_entries (alter (mark now) i m)) = S (length (dispatched_entries m)).
Proof.
  unfold dispatched_entries.
  induction m as [|e0 m IH]; intros [|i] e Hi Hd; simpl in Hi; simplify_eq.
  - cbn [alter list_alter]. rewrite !filter_cons. simpl.
    rewrite (decide_False (P := dispatched e.2 = true)) by congruence. done.
  - cbn [alter list_alter]. rewrite !filter_cons.
    destruct (decide (dispatched e0.2 = true)); simpl; by erewrite IH.
Qed.

(** X4. What [getDispatchedCount] reads after a poll.  When
    [getPendingRequest] hands out a request, the dispatched entries are
    that request and the entries whose dispatch was not stale at [now];
    when it returns nothing, every entry of the table is dispatched, so
    [getDispatchedCount] equals [getPendingCount]. *)
Theorem dispatched_count_after_poll now s :
  match (getPendingRequest now s).2 with
  | Some _ =>
      getDispatchedCount (getPendingRequest now s).1
        = S (length (filter (live now) (pendingRequests s)))
  | None =>
      getDispatchedCount (getPendingRequest now s).1
        = length (filter (live now) (pendingRequests s)) ∧
      getDispatchedCount (getPendingRequest now s).1
        = getPendingCount (getPendingRequest now s).1
  end.
Proof.
  unfold getDispatchedCount, getPendingCount.
  destruct (getPendingRequest_outcome now s) as [Hnone|i k r Hi Hold]; simpl;
    rewrite count_dispatched_filter; simpl.
  - split; [apply dispatched_recover_all|].
    unfold dispatched_entries. rewrite filter_all; [done|].
    eapply Forall_impl; [exact Hnone|]. intros e He. unfold eligible in He.
    by apply negb_false_iff in He.
  - destruct Hold as (e & He & Hel & _). rewrite Hi in He. simplify_eq.
    unfold eligible in Hel. apply negb_true_iff in Hel.
    erewrite dispatched_alter_mark by done. by rewrite dispatched_recover_all.
Qed.

(** After the poll at 45025 of the three requests claimed at 10, 20 and
    30: "a" is handed out again, "b" is recovered, "c" (44995 ms) is
    still in flight. *)
Lemma dispatched_count_after_poll_witness :
  length (filter (live 45025) (pendingRequests all_claimed)) = 1%nat ∧
  getDispatchedCount (getPendingRequest 45025 all_claimed).1 = 2%nat.
Proof.
  split; [reflexivity|].
  pose proof (dispatched_count_after_poll 45025 all_claimed) as Hcount.
  change ((getPendingRequest 45025 all_claimed).2)
    with (Some (mkClaim "a" "get_file_tree" (object [("path", text "/")]))) in Hcount.
  rewrite Hcount. reflexivity.
Defined.

(** ** sendRequest *)

Lemma map_get_set_ne k k' x m : k' ≠ k → map_get k' (map_set k x m) = map_get k' m.
Proof.
  intros Hne. induction m as [|[k0 v0] m IH]; simpl.
  - by destruct (String.eqb_spec k' k).
  - destruct (String.eqb_spec k k0) as [->|Hk]; simpl.
    + destruct (String.eqb_spec k' k0); [done|]. by destruct (String.eqb_spec k' k0).
    + destruct (String.eqb_spec k' k0); [done|apply IH].
Qed.

Lemma map_set_length k x m :
  length (map_set k x m) = if map_has k m then length m else S (length m).
Proof.
  unfold map_has. induction m as [|[k0 v0] m IH]; simpl; [done|].
  destruct (String.eqb k k0); simpl; [done|].
  rewrite IH. by destruct (map_get k m).
Qed.

Lemma lookup_snoc_ne {A} (l : list A) (x : A) (i : nat) :
  i ≠ length l → (l ++ [x]) !! i = l !! i.
Proof.
  intros Hne. destruct (decide (i < length l)%nat) as [Hlt|Hge].
  - by apply lookup_app_l.
  - rewrite !lookup_ge_None_2; [done|lia|]. rewrite length_app. simpl. lia.
Qed.

(** X5. What [sendRequest] stores.  Under the id it drew, the table
    then holds a request with the endpoint, data and clock reading
    given, not dispatched, whose settling functions belong to the
    promise returned to the caller; that promise is new and pending, and
    the request's timer is scheduled for 60 s with a callback for this
    id and promise.  Every other id, timer and promise is as before.
    The table grows by one entry, except when the id was already in use:
    then [Map.set] replaces that entry and the size is unchanged. *)
Theorem sendRequest_stores s k now e d :
  map_get k (pendingRequests (sendRequest k now e d s).1)
    = Some {| id := k; endpoint := e; data := d; timestamp := now;
              resolve := (sendRequest k now e d s).2;
              reject := (sendRequest k now e d s).2;
              timeoutId := length (timers s);
              dispatched := false; dispatchedAt := 0 |} ∧
  (∀ k', k' ≠ k →
     map_get k' (pendingRequests (sendRequest k now e d s).1)
       = map_get k' (pendingRequests s)) ∧
  getPendingCount (sendRequest k now e d s).1
    = (if map_has k (pendingRequests s)
       then getPendingCount s else S (getPendingCount s)) ∧
  promises s !! (sendRequest k now e d s).2 = None ∧
  promises (sendRequest k now e d s).1 !! (sendRequest k now e d s).2 = Some [] ∧
  timers (sendRequest k now e d s).1 !! length (timers s)
    = Some (mkTimer requestTimeout k (sendRequest k now e d s).2 Scheduled) ∧
  (∀ q, q ≠ (sendRequest k now e d s).2 →
     promises (sendRequest k now e d s).1 !! q = promises s !! q) ∧
  (∀ t, t ≠ length (timers s) →
     timers (sendRequest k now e d s).1 !! t = timers s !! t).
Proof.
  unfold sendRequest, getPendingCount. cbn [fst snd pendingRequests timers promises].
  split_and!.
  - apply map_get_set_eq.
  - intros k' Hne. by apply map_get_set_ne.
  - apply map_set_length.
  - by apply lookup_ge_None_2.
  - by rewrite list_lookup_middle.
  - by rewrite list_lookup_middle.
  - intros q Hq. by apply lookup_snoc_ne.
  - intros t Ht. by apply lookup_snoc_ne.
Qed.

(** ** Promises, timers and the table stay in step *)

Lemma removal_nothing f h o s : removal f h o (λ _, True) s = s.
Proof.
  unfold removal. rewrite filter_all by (apply Forall_forall; tauto).
  rewrite filter_none by (apply Forall_forall; tauto). by destruct s.
Qed.

(** Every removing call is a removal whose timers end unscheduled and
    whose settling functions are those of the removed entries. *)
Lemma removing_step op s :
  Inv s → removing op →
  ∃ f h o (P : string * PendingRequest → Prop) (dec : ∀ e, Decision (P e)),
    (step op s).1 = removal f h o P s ∧
    (∀ tm, status (f tm) ≠ Scheduled) ∧
    (∀ e, e ∈ pendingRequests s → ¬ P e → h e.2 = resolve e.2).
Proof.
  intros HI Hop. pose proof (inv_keys s HI) as Hnd.
  destruct op; try done; cbn [step fst].
  - exists cancel, resolve, (Fulfilled response), (λ e, e.1 ≠ requestId_), _.
    split_and!; [by apply resolveRequest_removal|apply cancel_unschedules|done].
  - exists cancel, reject, (Rejected error), (λ e, e.1 ≠ requestId_), _.
    split_and!; [by apply rejectRequest_removal|apply cancel_unschedules|].
    intros e0 He0 _. by apply (Inv_reject_handle s).
  - exists cancel, reject, (Rejected (Error "Request timeout")), (unexpired now), _.
    split_and!; [by apply cleanupOldRequests_removal|apply cancel_unschedules|].
    intros e0 He0 _. by apply (Inv_reject_handle s).
  - exists cancel, reject, (Rejected (Error "Connection closed")), (λ _, False), _.
    split_and!; [by apply clearAllPendingRequests_removal|apply cancel_unschedules|].
    intros e0 He0 _. by apply (Inv_reject_handle s).
  - destruct (timers s !! t) as [tm|] eqn:Ht.
    + destruct (status tm) eqn:Hsched.
      * exists fired, (λ _, onTimeout tm), (Rejected (Error "Request timeout")),
          (λ e, e.1 ≠ forRequest tm), _.
        split_and!; [by apply fireTimeout_removal|done|].
        intros [k r] He0 Hk. simpl in *.
        assert (k = forRequest tm) as -> by (by destruct (decide (k = forRequest tm))).
        destruct (inv_timers s HI t tm Ht Hsched) as (r' & Hr' & <-).
        assert ((forRequest tm, r) = (forRequest tm, r')) as [= ->]
          by (by apply (Inv_key_inj s)).
        destruct (Inv_entry _ _ HI Hr') as (_ & _ & _ & Ht'). simpl in Ht'.
        rewrite Ht in Ht'. injection Ht' as Htm. by rewrite Htm.
      * exists cancel, resolve, (Rejected null), (λ _, True), _.
        rewrite removal_nothing, fireTimeout_idle.
        -- split_and!; [done|apply cancel_unschedules|tauto].
        -- intros tm' ?. simplify_eq. congruence.
      * exists cancel, resolve, (Rejected null), (λ _, True), _.
        rewrite removal_nothing, fireTimeout_idle.
        -- split_and!; [done|apply cancel_unschedules|tauto].
        -- intros tm' ?. simplify_eq. congruence.
    + exists cancel, resolve, (Rejected null), (λ _, True), _.
      rewrite removal_nothing, fireTimeout_idle.
      * split_and!; [done|apply cancel_unschedules|tauto].
      * intros tm' ?. simplify_eq.
Qed.

Lemma removal_no_orphan f h o (P : string * PendingRequest → Prop)
    `{!∀ e, Decision (P e)} s :
  (∀ e, e ∈ pendingRequests s → ¬ P e → h e.2 = resolve e.2) →
  Inv s → no_orphan s → no_orphan (removal f h o P s).
Proof.
  intros Hh HI Horph p Hp. rewrite (removal_promises f h o P s Hh HI) in Hp.
  destruct (decide (p ∈ _)) as [Hin|Hnin].
  - destruct (promises s !! p) as [calls|]; [|done]. simpl in Hp.
    injection Hp as Hp. by destruct calls.
  - destruct (Horph p Hp) as (e & He & <-). exists e. split; [|done].
    simpl. apply list_elem_of_filter. split; [|done].
    destruct (decide (P e)) as [|HnP]; [done|]. destruct Hnin.
    apply list_elem_of_fmap. exists e. split; [done|].
    apply list_elem_of_filter. done.
Qed.

Lemma step_no_orphan op s :
  fresh_id op s → Inv s → no_orphan s → no_orphan (step op s).1.
Proof.
  intros Hfresh HI Horph.
  destruct op;
    try (match goal with
         | |- no_orphan (step ?op s).1 =>
             destruct (removing_step op s HI I) as (f & h & o & P & dec & -> & _ & Hh);
             by apply removal_no_orphan
         end).
  - simpl in Hfresh. cbn [step fst]. unfold sendRequest. cbn [fst]. intros p Hp.
    cbn [promises pendingRequests] in *. rewrite map_set_fresh by done.
    apply lookup_app_Some in Hp as [Hp|[Hlen Hp]].
    + destruct (Horph p Hp) as (e & He & <-). exists e. split; [|done].
      apply elem_of_app. by left.
    + apply list_lookup_singleton_Some in Hp as [Hp0 _].
      eexists. split; [apply elem_of_app; right; by apply list_elem_of_singleton|].
      simpl. lia.
  - cbn [step]. intros p Hp. destruct (getPendingRequest_host now s) as [_ Hpr].
    rewrite Hpr in Hp. destruct (Horph p Hp) as (e & [j Hj]%list_elem_of_lookup & <-).
    destruct (Forall2_lookup_l _ _ _ _ _ (getPendingRequest_same now s) Hj)
      as (e' & Hj' & _ & Hr).
    exists e'. split; [by eapply list_elem_of_lookup_2|]. by rewrite Hr.
Qed.

Lemma reachable_no_orphan s : reachable s → no_orphan s.
Proof.
  induction 1 as [|op s Hs IH Hfresh].
  - intros p Hp. by destruct p.
  - apply step_no_orphan; [done|by apply reachable_Inv|done].
Qed.

(** X6. The life of a promise.  In every reachable state a promise
    created by [sendRequest] has received either no call, and then its
    request is still in the table, or exactly one call of [resolve] or
    [reject], and then no entry of the table refers to it: a caller is
    never answered twice, and a request never leaves the table without
    its caller being answered. *)
Theorem promise_lifecycle s p calls :
  reachable s →
  promises s !! p = Some calls →
  (calls = [] ∧
   ∃ k r, map_get k (pendingRequests s) = Some r ∧ resolve r = p ∧ reject r = p)
  ∨ ((∃ o, calls = [o]) ∧
     ∀ k r, map_get k (pendingRequests s) = Some r → resolve r ≠ p ∧ reject r ≠ p).
Proof.
  intros Hs Hp. pose proof (reachable_Inv s Hs) as HI.
  pose proof (proj1 (Forall_lookup _ _) (inv_once s HI) _ _ Hp) as Hlen.
  destruct calls as [|o [|o' calls]]; simpl in Hlen; [| |lia].
  - left. split; [done|].
    destruct (reachable_no_orphan s Hs p Hp) as ([k r] & He & Hr). simpl in Hr.
    exists k, r. split_and!; [|done|].
    + by apply elem_map_get; [apply (inv_keys s HI)|].
    + pose proof (Inv_reject_handle s (k, r) HI He) as Hrej. simpl in Hrej. congruence.
  - right. split; [by exists o|]. intros k r Hget.
    pose proof (map_get_elem _ _ _ Hget) as Hin.
    destruct (Inv_entry _ _ HI Hin) as (_ & Hrej & Hp0 & _). simpl in *.
    rewrite Hrej. split; intros <-; congruence.
Qed.

Lemma promise_lifecycle_witness :
  ([Fulfilled (text "ok")] = [] ∧
   ∃ k r, map_get k (pendingRequests (resolveRequest "a" (text "ok") one_claimed)) = Some r ∧
          resolve r = 0%nat ∧ reject r = 0%nat)
  ∨ ((∃ o, [Fulfilled (text "ok")] = [o]) ∧
     ∀ k r, map_get k (pendingRequests (resolveRequest "a" (text "ok") one_claimed)) = Some r →
            resolve r ≠ 0%nat ∧ reject r ≠ 0%nat).
Proof.
  apply (promise_lifecycle (resolveRequest "a" (text "ok") one_claimed)).
  - apply (reach_step (ResolveRequest "a" (text "ok"))); [apply one_claimed_reachable|done].
  - reflexivity.
Defined.

(** X7. The life of a timer.  In every reachable state the scheduled
    timers are exactly the timers of the entries of the table: each
    request in the table has its 60 s timer pending, and no timer stays
    scheduled once its request has been resolved, rejected, swept,
    cleared or timed out. *)
Theorem timer_lifecycle s t :
  reachable s →
  (∃ tm, timers s !! t = Some tm ∧ status tm = Scheduled) ↔
  (∃ k r, map_get k (pendingRequests s) = Some r ∧ timeoutId r = t).
Proof.
  intros Hs. pose proof (reachable_Inv s Hs) as HI. split.
  - intros (tm & Ht & Hsched).
    destruct (inv_timers s HI t tm Ht Hsched) as (r & Hr & <-).
    exists (forRequest tm), r. split; [|done].
    by apply elem_map_get; [apply (inv_keys s HI)|].
  - intros (k & r & Hget & <-). pose proof (map_get_elem _ _ _ Hget) as Hin.
    destruct (Inv_entry _ _ HI Hin) as (_ & _ & _ & Ht). by eexists.
Qed.

Lemma timer_lifecycle_witness :
  (∃ tm, timers one_claimed !! 2%nat = Some tm ∧ status tm = Scheduled) ↔
  (∃ k r, map_get k (pendingRequests one_claimed) = Some r ∧ timeoutId r = 2%nat).
Proof. apply timer_lifecycle, one_claimed_reachable. Defined.

(** ** Polls that find nothing, sweeps that find nothing *)

Lemma recover_live now e : live now e → recover now e = e.
Proof.
  intros [Hd Hle]. unfold recover. destruct (stale now e.2) eqn:Hst; [|done].
  apply stale_true in Hst as [_ ?]. lia.
Qed.

Lemma recover_all_live now m : Forall (live now) m → recover_all now m = m.
Proof.
  unfold recover_all. induction 1 as [|e m He _ IH]; [done|].
  by rewrite fmap_cons, IH, recover_live.
Qed.

(** X8. A poll while everything is in flight is a no-op.  When every
    entry of the table is dispatched and none of these dispatches is
    older than 45 s (in particular when the table is empty),
    [getPendingRequest] returns [null] and leaves the table, the timers
    and the promises exactly as they were. *)
Theorem idle_poll_noop now s :
  Forall (live now) (pendingRequests s) →
  getPendingRequest now s = (s, None).
Proof.
  intros Hlive.
  destruct (getPendingRequest_outcome now s) as [Hnone|i k r Hi Hold].
  - rewrite recover_all_live by done. by destruct s.
  - exfalso. rewrite recover_all_live in Hi, Hold by done.
    destruct Hold as (e & He & Hel & _). rewrite Hi in He. simplify_eq.
    pose proof (proj1 (Forall_lookup _ _) Hlive _ _ Hi) as [Hd _].
    unfold eligible in Hel. simpl in *. rewrite Hd in Hel. done.
Qed.

Lemma idle_poll_noop_witness :
  getPendingRequest 45010 all_claimed = (all_claimed, None) ∧
  getPendingRequest 7 initial = (initial, None).
Proof.
  split; apply idle_poll_noop.
  - repeat apply Forall_cons_2; try apply Forall_nil_2;
      (split; [reflexivity|unfold dispatchStaleTimeout; simpl; lia]).
  - apply Forall_nil_2.
Defined.

Lemma cleanup_loop_unexpired now entries s :
  Forall (unexpired now) entries → cleanup_loop now entries s = s.
Proof.
  induction 1 as [|[k r] entries He _ IH]; [done|]. cbn [cleanup_loop].
  destruct (Z.gtb_spec (now - timestamp r) requestTimeout) as [Hexp|]; [|done].
  unfold unexpired in He. simpl in He. lia.
Qed.

(** X9. The sweep does nothing when no entry is older than 60 s (an
    entry exactly 60 s old is kept; the empty table is a case of this),
    and sweeping twice at the same clock reading is the same as sweeping
    once: nobody is rejected a second time. *)
Theorem sweep_idempotent now s :
  NoDup (keys (pendingRequests s)) →
  (Forall (unexpired now) (pendingRequests s) → cleanupOldRequests now s = s) ∧
  cleanupOldRequests now (cleanupOldRequests now s) = cleanupOldRequests now s.
Proof.
  intros Hnd. split.
  - intros Hall. by apply cleanup_loop_unexpired.
  - apply cleanup_loop_unexpired.
    rewrite cleanupOldRequests_removal by done. simpl.
    apply Forall_forall. by intros e [? _]%list_elem_of_filter.
Qed.

Lemma sweep_idempotent_witness :
  cleanupOldRequests 60001 one_claimed = one_claimed ∧
  cleanupOldRequests 60002 (cleanupOldRequests 60002 one_claimed)
    = cleanupOldRequests 60002 one_claimed.
Proof.
  assert (NoDup (keys (pendingRequests one_claimed))) as Hnd
    by (apply (bool_decide_unpack _); by vm_compute).
  split.
  - apply (proj1 (sweep_idempotent 60001 one_claimed Hnd)).
    repeat apply Forall_cons_2; try apply Forall_nil_2;
      unfold unexpired, requestTimeout; simpl; lia.
  - apply (proj2 (sweep_idempotent 60002 one_claimed Hnd)).
Defined.

(** ** Responses in any order *)

Lemma map_get_delete_ne k k' m : k ≠ k' → map_get k' (map_delete k m) = map_get k' m.
Proof.
  intros Hne. induction m as [|[k0 v] m IH]; simpl; [done|].
  destruct (String.eqb_spec k k0) as [->|Hne0]; simpl.
  - by destruct (String.eqb_spec k' k0).
  - destruct (String.eqb_spec k' k0); [done|apply IH].
Qed.

Lemma map_delete_comm k1 k2 m :
  map_delete k1 (map_delete k2 m) = map_delete k2 (map_delete k1 m).
Proof.
  induction m as [|[k0 v] m IH]; simpl; [done|].
  destruct (String.eqb k1 k0) eqn:H1, (String.eqb k2 k0) eqn:H2; simpl;
    rewrite ?H1, ?H2; try done.
  - apply String.eqb_eq in H1, H2. by subst.
  - by rewrite IH.
Qed.

Lemma finish_commute h1 h2 o1 o2 k1 k2 s :
  k1 ≠ k2 →
  (∀ r1 r2, map_get k1 (pendingRequests s) = Some r1 →
            map_get k2 (pendingRequests s) = Some r2 →
            timeoutId r1 ≠ timeoutId r2 ∧ h1 r1 ≠ h2 r2) →
  finish h1 o1 k1 (finish h2 o2 k2 s) = finish h2 o2 k2 (finish h1 o1 k1 s).
Proof.
  intros Hne Hdiff. unfold finish at 2 4.
  destruct (map_get k1 (pendingRequests s)) as [r1|] eqn:H1;
    destruct (map_get k2 (pendingRequests s)) as [r2|] eqn:H2.
  - destruct (Hdiff r1 r2 eq_refl eq_refl) as [Ht Hh].
    unfold finish. cbn [settle clearTimeout with_table pendingRequests timers promises].
    rewrite !map_get_delete_ne by done. rewrite H1, H2.
    unfold settle, clearTimeout, with_table.
    cbn [pendingRequests timers promises].
    f_equal.
    + apply map_delete_comm.
    + by apply list_alter_alter_ne.
    + by apply list_alter_alter_ne.
  - unfold finish. cbn [settle clearTimeout with_table pendingRequests timers promises].
    by rewrite H1, map_get_delete_ne, H2 by done.
  - unfold finish. cbn [settle clearTimeout with_table pendingRequests timers promises].
    by rewrite H2, map_get_delete_ne, H1 by done.
  - unfold finish. by rewrite H1, H2.
Qed.

(** X10. Responses can arrive in any order.  In a state that satisfies
    the invariant, resolving or rejecting two different ids gives the
    same state whichever is done first. *)
Theorem responses_commute s k1 k2 v1 v2 err1 err2 :
  Inv s →
  k1 ≠ k2 →
  resolveRequest k1 v1 (resolveRequest k2 v2 s)
    = resolveRequest k2 v2 (resolveRequest k1 v1 s) ∧
  resolveRequest k1 v1 (rejectRequest k2 err2 s)
    = rejectRequest k2 err2 (resolveRequest k1 v1 s) ∧
  rejectRequest k1 err1 (rejectRequest k2 err2 s)
    = rejectRequest k2 err2 (rejectRequest k1 err1 s).
Proof.
  intros HI Hne.
  assert (∀ r1 r2, map_get k1 (pendingRequests s) = Some r1 →
                   map_get k2 (pendingRequests s) = Some r2 →
                   timeoutId r1 ≠ timeoutId r2 ∧ resolve r1 ≠ resolve r2 ∧
                   reject r1 = resolve r1 ∧ reject r2 = resolve r2) as Hdiff.
  { intros r1 r2 H1%map_get_elem H2%map_get_elem.
    pose proof (Inv_reject_handle s _ HI H1). pose proof (Inv_reject_handle s _ HI H2).
    split_and!; try done.
    - intros Ht. by pose proof (Inv_timeoutId_inj s (k1, r1) (k2, r2) HI H1 H2 Ht) as [= ? ?].
    - intros Hh. by pose proof (Inv_handle_inj s (k1, r1) (k2, r2) HI H1 H2 Hh) as [= ? ?]. }
  split_and!.
  - apply (finish_commute resolve resolve); [done|].
    intros r1 r2 H1 H2. destruct (Hdiff r1 r2 H1 H2) as (? & ? & _). done.
  - apply (finish_commute resolve reject); [done|].
    intros r1 r2 H1 H2. destruct (Hdiff r1 r2 H1 H2) as (? & ? & _ & ->). done.
  - apply (finish_commute reject reject); [done|].
    intros r1 r2 H1 H2. destruct (Hdiff r1 r2 H1 H2) as (? & ? & -> & ->). done.
Qed.

Lemma responses_commute_witness :
  resolveRequest "a" (text "1") (resolveRequest "b" (text "2") one_claimed)
    = resolveRequest "b" (text "2") (resolveRequest "a" (text "1") one_claimed) ∧
  resolveRequest "a" (text "1") (rejectRequest "b" (Error "e2") one_claimed)
    = rejectRequest "b" (Error "e2") (resolveRequest "a" (text "1") one_claimed) ∧
  rejectRequest "a" (Error "e1") (rejectRequest "b" (Error "e2") one_claimed)
    = rejectRequest "b" (Error "e2") (rejectRequest "a" (Error "e1") one_claimed).
Proof.
  apply responses_commute; [apply reachable_Inv, one_claimed_reachable|done].
Defined.

(** ** What a poll can return *)

Lemma unknown_claim k now s :
  unknown k (pendingRequests s) →
  unknown k (pendingRequests (getPendingRequest now s).1) ∧
  ∀ c, (getPendingRequest now s).2 = Some c → requestId c ≠ k.
Proof.
  intros Hun.
  assert (unknown k (recover_all now (pendingRequests s))) as Hrec.
  { unfold unknown, recover_all. apply Forall_fmap. eapply Forall_impl; [exact Hun|].
    intros e [Hid Hk]. simpl. by rewrite recover_id, recover_fst. }
  destruct (getPendingRequest_outcome now s) as [Hnone|i k' r Hi Hold]; simpl; [done|].
  pose proof (proj1 (Forall_lookup _ _) Hrec _ _ Hi) as [Hid Hk]. simpl in *.
  split.
  - apply Forall_alter; [done|]. by intros [k0 r0] _ ?.
  - intros c [= <-]. simpl. congruence.
Qed.

Lemma unknown_step k op s :
  not_sent k op →
  unknown k (pendingRequests s) →
  unknown k (pendingRequests (step op s).1) ∧
  ∀ c, (step op s).2 = Some c → requestId c ≠ k.
Proof.
  intros Hop Hun. destruct op; simpl in *; try (split; [|done]).
  - apply Forall_map_set; [done|]. simpl. done.
  - by apply unknown_claim.
  - rewrite pendingRequests_resolveRequest.
    eapply Forall_sublist_of; [apply map_delete_sublist|done].
  - rewrite pendingRequests_rejectRequest.
    eapply Forall_sublist_of; [apply map_delete_sublist|done].
  - eapply Forall_sublist_of; [apply pendingRequests_cleanup_loop|done].
  - by constructor.
  - eapply Forall_sublist_of; [apply pendingRequests_fireTimeout|done].
Qed.

Lemma unknown_run k ops : ∀ s,
  Forall (not_sent k) ops →
  unknown k (pendingRequests s) →
  Forall (λ o, ∀ c, o = Some c → requestId c ≠ k) (run ops s).2.
Proof.
  induction ops as [|op ops IH]; intros s Hops Hun; simpl; [by constructor|].
  apply Forall_cons in Hops as [Hop Hops].
  destruct (unknown_step _ _ _ Hop Hun) as [Hun' Hc].
  specialize (IH (step op s).1 Hops Hun').
  destruct (step op s) as [s1 c]. simpl in *.
  destruct (run ops s1) as [s2 cs]. simpl in *.
  destruct op; try done. by constructor.
Qed.

Lemma unknown_after_delete k m : wf_table m → unknown k (map_delete k m).
Proof.
  intros [Hnd Hid]. apply Forall_forall. intros e [He Hk]%map_delete_elem; [|done].
  split; [|done]. by apply (proj1 (Forall_forall _ _) Hid).
Qed.

(** X11. A request that has been answered is never handed out again.
    Once [resolveRequest] or [rejectRequest] has been called for an id,
    no later [getPendingRequest] returns that id, however late it is
    called and whatever calls are made in between, as long as no new
    request is given the same id. *)
Theorem answered_never_claimed s k v err ops :
  wf_table (pendingRequests s) →
  Forall (not_sent k) ops →
  Forall (λ o, ∀ c, o = Some c → requestId c ≠ k) (run ops (resolveRequest k v s)).2 ∧
  Forall (λ o, ∀ c, o = Some c → requestId c ≠ k) (run ops (rejectRequest k err s)).2.
Proof.
  intros Hwf Hops. split; apply unknown_run; try done.
  - rewrite pendingRequests_resolveRequest. by apply unknown_after_delete.
  - rewrite pendingRequests_rejectRequest. by apply unknown_after_delete.
Qed.

Lemma answered_never_claimed_witness :
  Forall (λ o, ∀ c, o = Some c → requestId c ≠ "a")
    (run [GetPendingRequest 20; GetPendingRequest 99999; CleanupOldRequests 99999;
          SendRequest "d" 100000 "get_selection" null; GetPendingRequest 100001]
       (resolveRequest "a" (text "ok") one_claimed)).2 ∧
  Forall (λ o, ∀ c, o = Some c → requestId c ≠ "a")
    (run [GetPendingRequest 20; GetPendingRequest 99999; CleanupOldRequests 99999;
          SendRequest "d" 100000 "get_selection" null; GetPendingRequest 100001]
       (rejectRequest "a" (Error "failed") one_claimed)).2.
Proof.
  apply answered_never_claimed.
  - wf_by_computation.
  - repeat apply Forall_cons_2; try apply Forall_nil_2; simpl; done.
Defined.

(** X12. What a poll returns is what was stored.  On a table with
    unique keys, when [getPendingRequest] returns a claim, its id is the
    key of an entry of the table, its endpoint and data are that entry's,
    and the entry was either not dispatched or dispatched more than 45 s
    before [now]. *)
Theorem claim_returns_stored now s c :
  wf_table (pendingRequests s) →
  (getPendingRequest now s).2 = Some c →
  ∃ r, map_get (requestId c) (pendingRequests s) = Some r ∧
       request_endpoint c = endpoint r ∧ request_data c = data r ∧
       (dispatched r = false ∨ now - dispatchedAt r > dispatchStaleTimeout).
Proof.
  intros Hwf Hc. pose proof (recover_all_wf now _ Hwf) as [_ Hidr].
  destruct Hwf as [Hnd Hid].
  destruct (getPendingRequest_outcome now s) as [Hnone|i k r0 Hi Hold];
    simpl in *; [done|].
  simplify_eq. simpl.
  pose proof (proj1 (Forall_lookup _ _) Hidr _ _ Hi) as Hk. simpl in Hk. rewrite Hk.
  destruct Hold as (e & He & Hel & _). rewrite Hi in He. simplify_eq.
  unfold eligible in Hel. simpl in Hel. apply negb_true_iff in Hel.
  rewrite recover_all_lookup in Hi.
  destruct (pendingRequests s !! i) as [[k1 r1]|] eqn:Hi1; [|done].
  simpl in Hi. injection Hi as Hrec.
  assert (k1 = id r0) as ->.
  { pose proof (recover_fst now (id r0, r0)) as _.
    pose proof (recover_fst now (k1, r1)) as Hf. by rewrite Hrec in Hf. }
  exists r1. split; [by eapply lookup_map_get|].
  unfold recover in Hrec. simpl in Hrec. destruct (stale now r1) eqn:Hst.
  - injection Hrec as <-. simpl. split_and!; try done.
    right. by apply stale_true in Hst as [_ ?].
  - injection Hrec as <-. split_and!; try done. by left.
Qed.

Lemma claim_returns_stored_witness :
  ∃ r, map_get "b" (pendingRequests one_claimed) = Some r ∧
       "set_property" = endpoint r ∧ text "x" = data r ∧
       (dispatched r = false ∨ 20 - dispatchedAt r > dispatchStaleTimeout).
Proof.
  apply (claim_returns_stored 20 one_claimed (mkClaim "b" "set_property" (text "x"))).
  - wf_by_computation.
  - reflexivity.
Defined.

(** ** The dispatch fields *)

Lemma step_rest_at_zero op s :
  rest_at_zero (pendingRequests s) → rest_at_zero (pendingRequests (step op s).1).
Proof.
  intros Hz. destruct op; cbn [step fst].
  - apply Forall_map_set; [done|]. done.
  - assert (rest_at_zero (recover_all now (pendingRequests s))) as Hrec.
    { unfold rest_at_zero, recover_all. apply Forall_fmap. eapply Forall_impl; [exact Hz|].
      intros e He. simpl. unfold recover. by destruct (stale now e.2). }
    destruct (getPendingRequest_outcome now s) as [Hnone|i k r Hi Hold]; simpl; [done|].
    apply Forall_alter; [done|]. by intros [k0 r0] _ _.
  - rewrite pendingRequests_resolveRequest.
    eapply Forall_sublist_of; [apply map_delete_sublist|done].
  - rewrite pendingRequests_rejectRequest.
    eapply Forall_sublist_of; [apply map_delete_sublist|done].
  - eapply Forall_sublist_of; [apply pendingRequests_cleanup_loop|done].
  - by constructor.
  - eapply Forall_sublist_of; [apply pendingRequests_fireTimeout|done].
Qed.

(** X13. [dispatchedAt] is 0 whenever [dispatched] is [false]: in every
    reachable state, an entry that was never claimed, or whose stale
    dispatch was recovered, carries no leftover claim time. *)
Theorem undispatched_at_zero s k r :
  reachable s →
  map_get k (pendingRequests s) = Some r →
  dispatched r = false →
  dispatchedAt r = 0.
Proof.
  intros Hs Hget. apply map_get_elem in Hget.
  assert (rest_at_zero (pendingRequests s)) as Hz.
  { clear Hget. induction Hs as [|op s _ IH _]; [by constructor|].
    by apply step_rest_at_zero. }
  apply (proj1 (Forall_forall _ _) Hz (k, r) Hget).
Qed.

Lemma undispatched_at_zero_witness :
  dispatchedAt (set_dispatch false 0 request_b) = 0.
Proof.
  apply (undispatched_at_zero (getPendingRequest 45025 all_claimed).1 "b").
  - apply (reach_step (GetPendingRequest 45025)); [apply run_reachable|done].
    + apply three_requests_reachable.
    + by repeat split.
  - reflexivity.
  - reflexivity.
Defined.

(** X14. The polls change nothing but the dispatch fields.  For every
    state and clock reading, [getPendingRequest] keeps the keys of the
    table and their order, keeps every field of every entry other than
    [dispatched] and [dispatchedAt], and leaves all timers and promises
    alone: a poll never settles, adds or drops a request. *)
Theorem poll_changes_dispatch_only now s :
  keys (pendingRequests (getPendingRequest now s).1) = keys (pendingRequests s) ∧
  getPendingCount (getPendingRequest now s).1 = getPendingCount s ∧
  Forall2 (λ e e', e'.1 = e.1 ∧ id e'.2 = id e.2 ∧ endpoint e'.2 = endpoint e.2 ∧
                   data e'.2 = data e.2 ∧ timestamp e'.2 = timestamp e.2 ∧
                   resolve e'.2 = resolve e.2 ∧ reject e'.2 = reject e.2 ∧
                   timeoutId e'.2 = timeoutId e.2)
    (pendingRequests s) (pendingRequests (getPendingRequest now s).1) ∧
  timers (getPendingRequest now s).1 = timers s ∧
  promises (getPendingRequest now s).1 = promises s.
Proof.
  split_and!.
  - apply getPendingRequest_keys.
  - apply getPendingRequest_count.
  - eapply Forall2_impl; [apply getPendingRequest_same|].
    intros e e' [Hk Hr]. rewrite Hr. simpl. done.
  - apply getPendingRequest_host.
  - apply getPendingRequest_host.
Qed.

(** X15. The oldest waiting request is served.  On a table with unique
    keys, if the entry of [k] is not dispatched, or its dispatch is
    older than 45 s, and every other entry in the same situation was
    sent strictly later, then [getPendingRequest] returns [k] with its
    endpoint and data; so a request whose claimant went silent is handed
    out again at the first poll after the stale window, unless an older
    request is waiting. *)
Theorem oldest_is_served now s k r :
  wf_table (pendingRequests s) →
  map_get k (pendingRequests s) = Some r →
  ¬ live now (k, r) →
  (∀ k' r', map_get k' (pendingRequests s) = Some r' → k' ≠ k →
            ¬ live now (k', r') → timestamp r < timestamp r') →
  (getPendingRequest now s).2 = Some (mkClaim k (endpoint r) (data r)).
Proof.
  intros [Hnd Hid] Hget Hnl Hold.
  pose proof (map_get_elem _ _ _ Hget) as [j Hj]%list_elem_of_lookup.
  assert (∀ e, eligible (recover now e) = true ↔ ¬ live now e) as Hel.
  { intros e. unfold eligible. rewrite negb_true_iff, <- recover_dispatched.
    destruct (dispatched (recover now e).2); split; congruence. }
  assert (∀ e, timestamp (recover now e).2 = timestamp e.2 ∧
               id (recover now e).2 = id e.2 ∧ endpoint (recover now e).2 = endpoint e.2 ∧
               data (recover now e).2 = data e.2) as Hsame.
  { intros e. destruct (same_request_recover now e) as [_ ->]. done. }
  destruct (getPendingRequest_outcome now s) as [Hnone|i k0 r0 Hi (e0 & Hi' & Hel0 & Hmin)];
    simpl.
  { exfalso. pose proof (proj1 (Forall_lookup _ _) Hnone j (recover now (k, r))) as Hn.
    rewrite recover_all_lookup, Hj in Hn. specialize (Hn eq_refl).
    apply Hel in Hnl. congruence. }
  rewrite Hi in Hi'. simplify_eq. simpl in Hmin.
  rewrite recover_all_lookup in Hi.
  destruct (pendingRequests s !! i) as [[k1 r1]|] eqn:Hi1; [|done].
  simpl in Hi. injection Hi as Hrec.
  destruct (Hsame (k1, r1)) as (Hts & Hid1 & Hep & Hda). rewrite Hrec in Hts, Hid1, Hep, Hda.
  simpl in *.
  assert (k1 = k) as ->.
  { destruct (decide (k1 = k)) as [|Hne]; [done|]. exfalso.
    assert (¬ live now (k1, r1)) as Hnl1.
    { apply Hel. by rewrite Hrec. }
    pose proof (Hold k1 r1 (lookup_map_get _ _ _ _ Hnd Hi1) Hne Hnl1) as Hlt.
    destruct (Hmin j (recover now (k, r))) as [Hle _].
    - by rewrite recover_all_lookup, Hj.
    - by apply Hel.
    - destruct (Hsame (k, r)) as (Hts' & _). simpl in *. lia. }
  pose proof (lookup_map_get _ _ _ _ Hnd Hi1) as Hget1.
  rewrite Hget in Hget1. simplify_eq.
  pose proof (proj1 (Forall_lookup _ _) Hid _ _ Hi1) as Hk. simpl in Hk.
  by rewrite Hid1, Hep, Hda, Hk.
Qed.

Lemma oldest_is_served_witness :
  (getPendingRequest 45025 all_claimed).2
    = Some (mkClaim "a" (endpoint (set_dispatch true 10 request_a))
              (data (set_dispatch true 10 request_a))).
Proof.
  apply oldest_is_served.
  - wf_by_computation.
  - reflexivity.
  - unfold live, dispatchStaleTimeout. simpl. lia.
  - intros k' r' Hget Hne Hnl. apply map_get_elem in Hget.
    change (pendingRequests all_claimed)
      with [("a", set_dispatch true 10 request_a); ("b", set_dispatch true 20 request_b);
            ("c", set_dispatch true 30 request_c)] in Hget.
    repeat (apply elem_of_cons in Hget as [Heq|Hget]; [injection Heq as -> ->|]).
    + done.
    + simpl. lia.
    + exfalso. apply Hnl. unfold live, dispatchStaleTimeout. simpl. split; [done|lia].
    + by apply elem_of_nil in Hget.
Defined.

(** ** The bulk operations as single rejections *)

Lemma reject_each_fold err entries : ∀ s,
  pendingRequests s = entries →
  foldl (λ s e, rejectRequest e.1 err s) s entries
  = {| pendingRequests := [];
       timers := foldl (λ tms e, alter cancel (timeoutId e.2) tms) (timers s) entries;
       promises := foldl (λ ps e, alter (λ calls, calls ++ [Rejected err]) (reject e.2) ps)
                     (promises s) entries |}.
Proof.
  induction entries as [|[k r] entries IH]; intros s Hs.
  - simpl. destruct s. simpl in *. by subst.
  - cbn [foldl]. rewrite IH.
    + unfold rejectRequest. rewrite Hs. simpl. by rewrite String.eqb_refl.
    + unfold rejectRequest. rewrite Hs. simpl. rewrite String.eqb_refl. simpl.
      rewrite Hs. simpl. by rewrite String.eqb_refl.
Qed.

Lemma map_get_middle k r (kept rest : Table) :
  k ∉ keys kept → map_get k (kept ++ (k, r) :: rest) = Some r.
Proof.
  unfold keys. induction kept as [|[k' v] kept IH]; simpl; intros Hk.
  - by rewrite String.eqb_refl.
  - apply not_elem_of_cons in Hk as [Hne Hk].
    destruct (String.eqb_spec k k'); [done|]. by apply IH.
Qed.

Lemma cleanup_loop_reject_each now entries : ∀ kept s,
  pendingRequests s = kept ++ entries →
  NoDup (keys (kept ++ entries)) →
  cleanup_loop now entries s
  = foldl (λ s e, rejectRequest e.1 (Error "Request timeout") s) s
      (filter (λ e, ¬ unexpired now e) entries).
Proof.
  induction entries as [|[k r] entries IH]; intros kept s Htable Hnd; [done|].
  assert (k ∉ keys kept) as Hk.
  { unfold keys in *. rewrite fmap_app in Hnd. apply NoDup_app in Hnd as (_ & Hnd & _).
    intros Hk. apply (Hnd _ Hk). simpl. left. }
  cbn [cleanup_loop]. rewrite filter_cons.
  destruct (Z.gtb_spec (now - timestamp r) requestTimeout) as [Hexp|Hfresh].
  - rewrite decide_True by (unfold unexpired; simpl; lia). cbn [foldl fst].
    assert (rejectRequest k (Error "Request timeout") s
            = settle (reject r) (Rejected (Error "Request timeout"))
                (with_table (map_delete k (pendingRequests (clearTimeout (timeoutId r) s)))
                   (clearTimeout (timeoutId r) s))) as <-.
    { unfold rejectRequest. by rewrite Htable, map_get_middle. }
    apply (IH kept).
    + rewrite pendingRequests_rejectRequest, Htable. by apply map_delete_middle.
    + unfold keys in *. rewrite fmap_app in *. simpl in Hnd.
      apply NoDup_app in Hnd as (Hd & Hdis & Hr). apply NoDup_cons in Hr as [_ Hr].
      apply NoDup_app. split_and!; [done| |done].
      intros x Hx Hx'. apply (Hdis _ Hx). by right.
  - rewrite decide_False by (unfold unexpired; simpl; lia).
    apply (IH (kept ++ [(k, r)])); by rewrite <- app_assoc.
Qed.

(** X16. The bulk operations are single rejections in a row.
    [clearAllPendingRequests] leaves the state that rejecting every id
    of the table in turn with the error "Connection closed" leaves, and
    (keys being unique) [cleanupOldRequests] the state that rejecting,
    in turn, every id older than 60 s with the error "Request timeout"
    leaves. *)
Theorem bulk_is_reject_each now s :
  NoDup (keys (pendingRequests s)) →
  clearAllPendingRequests s
    = foldl (λ s e, rejectRequest e.1 (Error "Connection closed") s) s (pendingRequests s) ∧
  cleanupOldRequests now s
    = foldl (λ s e, rejectRequest e.1 (Error "Request timeout") s) s
        (filter (λ e, ¬ unexpired now e) (pendingRequests s)).
Proof.
  intros Hnd. split.
  - rewrite reject_each_fold by done. unfold clearAllPendingRequests.
    by rewrite (clear_loop_fold _ _ _ eq_refl).
  - by apply (cleanup_loop_reject_each now _ []).
Qed.

(** At clock 60003 the sweep is the rejection of "a" and of "b". *)
Lemma bulk_is_reject_each_witness :
  clearAllPendingRequests one_claimed
    = foldl (λ s e, rejectRequest e.1 (Error "Connection closed") s) one_claimed
        [("a", set_dispatch true 10 request_a); ("b", request_b); ("c", request_c)] ∧
  cleanupOldRequests 60003 one_claimed
    = foldl (λ s e, rejectRequest e.1 (Error "Request timeout") s) one_claimed
        [("a", set_dispatch true 10 request_a); ("b", request_b)].
Proof.
  assert (NoDup (keys (pendingRequests one_claimed))) as Hnd
    by (apply (bool_decide_unpack _); by vm_compute).
  destruct (bulk_is_reject_each 60003 one_claimed Hnd) as [Hclear Hsweep].
  split.
  - rewrite Hclear. reflexivity.
  - rewrite Hsweep. reflexivity.
Defined.

(** ** Accounting of [getPendingCount] *)

Lemma map_delete_length k m :
  length (map_delete k m) = if map_has k m then pred (length m) else length m.
Proof.
  unfold map_has. induction m as [|[k0 v0] m IH]; simpl; [done|].
  destruct (String.eqb k k0); simpl; [done|].
  rewrite IH. destruct (map_get k m) eqn:Hget; [|done].
  destruct m; [done|]. done.
Qed.

(** X17. How the calls move [getPendingCount].  A response for an id in
    the table lowers it by one and a response for an unknown id leaves
    it; the sweep leaves the number of entries at most 60 s old; the
    timer callback and the sweep never raise it; after
    [clearAllPendingRequests] it is 0. *)
Theorem pending_count_accounting s k v err now t :
  getPendingCount (resolveRequest k v s)
    = (if map_has k (pendingRequests s)
       then pred (getPendingCount s) else getPendingCount s) ∧
  getPendingCount (rejectRequest k err s)
    = (if map_has k (pendingRequests s)
       then pred (getPendingCount s) else getPendingCount s) ∧
  (getPendingCount (cleanupOldRequests now s) ≤ getPendingCount s)%nat ∧
  (NoDup (keys (pendingRequests s)) →
   getPendingCount (cleanupOldRequests now s)
     = length (filter (unexpired now) (pendingRequests s))) ∧
  (getPendingCount (fireTimeout t s) ≤ getPendingCount s)%nat ∧
  getPendingCount (clearAllPendingRequests s) = 0%nat.
Proof.
  unfold getPendingCount. split_and!.
  - rewrite pendingRequests_resolveRequest. apply map_delete_length.
  - rewrite pendingRequests_rejectRequest. apply map_delete_length.
  - apply sublist_length, pendingRequests_cleanup_loop.
  - intros Hnd. by rewrite cleanupOldRequests_removal.
  - apply sublist_length, pendingRequests_fireTimeout.
  - done.
Qed.

(** At clock 60003 the sweep removes "a" and "b" (60002 and 60001 ms
    old) and keeps "c" (exactly 60000 ms old). *)
Lemma pending_count_accounting_witness :
  getPendingCount (resolveRequest "a" (text "ok") one_claimed) = 2%nat ∧
  getPendingCount (resolveRequest "zz" (text "ok") one_claimed) = 3%nat ∧
  getPendingCount (cleanupOldRequests 60003 one_claimed) = 1%nat.
Proof.
  split_and!.
  - apply (proj1 (pending_count_accounting one_claimed "a" (text "ok") null 0 0%nat)).
  - apply (proj1 (pending_count_accounting one_claimed "zz" (text "ok") null 0 0%nat)).
  - destruct (pending_count_accounting one_claimed "a" (text "ok") null 60003 0%nat)
      as (_ & _ & _ & Hsweep & _).
    rewrite Hsweep; [reflexivity|]. apply (bool_decide_unpack _). by vm_compute.
Defined.

Lemma sendRequest_stores_witness :
  map_get "b" (pendingRequests (sendRequest "d" 50 "get_selection" null one_claimed).1)
    = map_get "b" (pendingRequests one_claimed) ∧
  getPendingCount (sendRequest "d" 50 "get_selection" null one_claimed).1 = 4%nat ∧
  getPendingCount (sendRequest "a" 50 "get_selection" null one_claimed).1 = 3%nat ∧
  timers (sendRequest "d" 50 "get_selection" null one_claimed).1 !! 3%nat
    = Some (mkTimer 60000 "d" 3 Scheduled).
Proof.
  split_and!.
  - by apply (sendRequest_stores one_claimed "d" 50 "get_selection" null).
  - apply (sendRequest_stores one_claimed "d" 50 "get_selection" null).
  - apply (sendRequest_stores one_claimed "a" 50 "get_selection" null).
  - apply (sendRequest_stores one_claimed "d" 50 "get_selection" null).
Defined.
